(** * SleekXMPP scheduler: a shallow embedding of
      [sleekxmpp/xmlstream/scheduler.py] and the properties of its
      [Task] and [Scheduler] classes.

    Python objects are references: a [Task] instance lives in an object
    store ([heap]) and the scheduler's lists hold locations, so that the
    in-place update of [task.next] performed by [Task.reset] is seen
    through every list that holds the task, and [list.index] /
    [list.remove] compare by identity as they do for a class without
    [__eq__].  Timestamps are rationals (the floating-point rounding of
    [time.time()] is abstracted); every call of [time.time()] takes the
    next reading of an arbitrary clock.  Other threads act only while the
    scheduler lock is free: they are an explicit schedule of [add],
    [remove], [quit] and [stopevent.set] calls interleaved with the loop. *)

From Stdlib Require Import QArith Lqa.
From stdpp Require Import gmap strings list sorting.

(** ** Values, exceptions, callbacks *)

Inductive pyval :=
| PyNone
| PyInt (z : Z)
| PyStr (s : string).

Inductive exn :=
| QueueEmpty                          (* queue.Empty *)
| KeyboardInterrupt
| SystemExit
| UniqueKeyConstraint (parameter : string)
| ValueError
| RuntimeError
| OtherError (tag : nat).             (* any other exception class *)

(** A callback is an opaque invokable: the scheduler only ever calls it,
    and the call either returns or raises.  Callbacks are assumed not to
    reach back into the scheduler's own lists. *)
Record callable := Callable {
  cb_id : nat;
  cb_body : list pyval -> list (string * pyval) -> option exn
}.

Definition loc := nat.
Definition qid := nat.

(** What the outside world can observe of a run. *)
Inductive event :=
| Called (cb : callable) (args : list pyval) (kwargs : list (string * pyval))
| QueuePut (q : qid) (item : string * callable * list pyval)
| AddqGet (block : bool) (timeout : option Q)
| LogDebug (msg : string).

(** ** The Task object (its attributes) *)

Module Task.

Record t := mk {
  name : string;
  seconds : Q;
  callback : callable;
  args : list pyval;
  kwargs : list (string * pyval);
  repeat : bool;
  next : Q;
  qpointer : option qid
}.

Definition set_next (v : Q) (self : t) : t :=
  mk (name self) (seconds self) (callback self) (args self) (kwargs self)
     (repeat self) v (qpointer self).

End Task.

#[global] Instance Task_inhabited : Inhabited Task.t :=
  populate (Task.mk "" 0 (Callable 0 (fun _ _ => None)) [] [] false 0 None).

(** ** Program state

    [addq], [schedule], [run], [stop] and [schedule_lock] are the
    attributes of the one [Scheduler] instance ([stop] is the flag of the
    shared stop event, [schedule_lock] the depth of the re-entrant lock);
    [updated] and [cleanup] are the locals of [_process] that outlive an
    exception; [heap], [clock], [ticks] and [trace] are the world. *)

Record State := mkState {
  heap : gmap loc Task.t;
  addq : list loc;
  schedule : list loc;
  run : bool;
  stop : bool;
  schedule_lock : nat;
  updated : bool;
  cleanup : list loc;
  clock : nat -> Q;
  ticks : nat;
  trace : list event
}.

Definition set_heap (h : gmap loc Task.t) (s : State) : State :=
  mkState h (addq s) (schedule s) (run s) (stop s) (schedule_lock s)
          (updated s) (cleanup s) (clock s) (ticks s) (trace s).
Definition set_addq (q : list loc) (s : State) : State :=
  mkState (heap s) q (schedule s) (run s) (stop s) (schedule_lock s)
          (updated s) (cleanup s) (clock s) (ticks s) (trace s).
Definition set_schedule (l : list loc) (s : State) : State :=
  mkState (heap s) (addq s) l (run s) (stop s) (schedule_lock s)
          (updated s) (cleanup s) (clock s) (ticks s) (trace s).
Definition set_run (b : bool) (s : State) : State :=
  mkState (heap s) (addq s) (schedule s) b (stop s) (schedule_lock s)
          (updated s) (cleanup s) (clock s) (ticks s) (trace s).
Definition set_stop (b : bool) (s : State) : State :=
  mkState (heap s) (addq s) (schedule s) (run s) b (schedule_lock s)
          (updated s) (cleanup s) (clock s) (ticks s) (trace s).
Definition set_lock (n : nat) (s : State) : State :=
  mkState (heap s) (addq s) (schedule s) (run s) (stop s) n
          (updated s) (cleanup s) (clock s) (ticks s) (trace s).
Definition set_updated (b : bool) (s : State) : State :=
  mkState (heap s) (addq s) (schedule s) (run s) (stop s) (schedule_lock s)
          b (cleanup s) (clock s) (ticks s) (trace s).
Definition set_cleanup (l : list loc) (s : State) : State :=
  mkState (heap s) (addq s) (schedule s) (run s) (stop s) (schedule_lock s)
          (updated s) l (clock s) (ticks s) (trace s).
Definition set_ticks (n : nat) (s : State) : State :=
  mkState (heap s) (addq s) (schedule s) (run s) (stop s) (schedule_lock s)
          (updated s) (cleanup s) (clock s) n (trace s).
Definition set_trace (t : list event) (s : State) : State :=
  mkState (heap s) (addq s) (schedule s) (run s) (stop s) (schedule_lock s)
          (updated s) (cleanup s) (clock s) (ticks s) t.

(** ** A state-and-exception monad

    A raised exception keeps the state reached so far, as in Python. *)

Inductive result (A : Type) :=
| Ok (a : A)
| Raise (e : exn).
Arguments Ok {A} a.
Arguments Raise {A} e.

Definition M (A : Type) : Type := State -> result A * State.

Definition ret {A} (a : A) : M A := fun s => (Ok a, s).
Definition raise {A} (e : exn) : M A := fun s => (Raise e, s).
Definition bind {A B} (m : M A) (k : A -> M B) : M B :=
  fun s => match m s with
           | (Ok a, s') => k a s'
           | (Raise e, s') => (Raise e, s')
           end.

Notation "x <- m ;; k" := (bind m (fun x => k))
  (at level 100, m at next level, right associativity).
Notation "m ;;; k" := (bind m (fun _ => k))
  (at level 100, right associativity).

Definition gets {A} (f : State -> A) : M A := fun s => (Ok (f s), s).
Definition modify (f : State -> State) : M unit := fun s => (Ok tt, f s).

(** [try: body finally: fin]; an exception of [fin] replaces the pending one. *)
Definition try_finally {A} (body : M A) (fin : M unit) : M A :=
  fun s => match body s with
           | (r, s') => match fin s' with
                        | (Ok _, s'') => (r, s'')
                        | (Raise e, s'') => (Raise e, s'')
                        end
           end.

(** [try: body except C: handler else: orelse]; neither [handler] nor
    [orelse] is protected by the [except] clause. *)
Definition try_except_else {A B} (body : M A) (catches : exn -> bool)
    (handler : exn -> M B) (orelse : A -> M B) : M B :=
  fun s => match body s with
           | (Ok a, s') => orelse a s'
           | (Raise e, s') => if catches e then handler e s' else (Raise e, s')
           end.

Definition try_except {A} (body : M A) (catches : exn -> bool)
    (handler : exn -> M A) : M A :=
  try_except_else body catches handler ret.

(** ** Primitives of the runtime *)

(** [time.time()]: the next reading of the clock. *)
Definition time_time : M Q :=
  fun s => (Ok (clock s (ticks s)), set_ticks (S (ticks s)) s).

Definition deref (l : loc) : M Task.t :=
  gets (fun s => heap s !!! l).

Definition store (l : loc) (v : Task.t) : M unit :=
  modify (fun s => set_heap (<[l := v]> (heap s)) s).

(** Object creation: a location no live object has. *)
Definition alloc (v : Task.t) : M loc :=
  fun s => let l := fresh (dom (heap s)) in
           (Ok l, set_heap (<[l := v]> (heap s)) s).

Definition emit (e : event) : M unit :=
  modify (fun s => set_trace (trace s ++ [e]) s).

(** The call of [callback] on the unpacked [args] and [kwargs]. *)
Definition call (cb : callable) (a : list pyval)
    (kw : list (string * pyval)) : M unit :=
  emit (Called cb a kw) ;;;
  match cb_body cb a kw with
  | None => ret tt
  | Some e => raise e
  end.

(** [qpointer.put(item)] on an external, unbounded queue. *)
Definition queue_put (q : qid) (item : string * callable * list pyval)
    : M unit :=
  emit (QueuePut q item).

(** [x or default] for an optional sequence argument: [None] and the
    empty sequence are both falsy. *)
Definition py_or {A} (x : option (list A)) (default : list A) : list A :=
  match x with
  | Some (a :: r) => a :: r
  | Some [] | None => default
  end.

(** [RLock.acquire] / [RLock.release] as seen by the one thread that
    holds the lock. *)
Definition acquire : M unit :=
  modify (fun s => set_lock (S (schedule_lock s)) s).

Definition release : M unit :=
  fun s => match schedule_lock s with
           | O => (Raise RuntimeError, s)
           | S n => (Ok tt, set_lock n s)
           end.

(** [sorted(l, key=...)]: a stable sort. *)
Fixpoint insert_by {A} (key : A -> Q) (x : A) (l : list A) : list A :=
  match l with
  | [] => [x]
  | y :: l' => if Qle_bool (key x) (key y) then x :: y :: l'
               else y :: insert_by key x l'
  end.

Definition sorted {A} (key : A -> Q) (l : list A) : list A :=
  foldr (insert_by key) [] l.

(** [l.index(x)] and [l.pop(i)], [l.remove(x)] on a list of objects. *)
Fixpoint index (x : loc) (l : list loc) : option nat :=
  match l with
  | [] => None
  | y :: l' => if decide (y = x) then Some O else S <$> index x l'
  end.

Fixpoint list_remove (x : loc) (l : list loc) : option (list loc) :=
  match l with
  | [] => None
  | y :: l' => if decide (y = x) then Some l' else (y ::.) <$> list_remove x l'
  end.

(** ** Task: methods *)

(** [Task.__init__] (with the allocation of the instance). *)
Definition Task__init__ (name : string) (seconds : Q) (callback : callable)
    (args : option (list pyval)) (kwargs : option (list (string * pyval)))
    (repeat : bool) (qpointer : option qid) : M loc :=
  now <- time_time ;;
  alloc (Task.mk name seconds callback (py_or args []) (py_or kwargs [])
                 repeat (now + seconds) qpointer).

(** [Task.reset] *)
Definition Task_reset (self : loc) : M unit :=
  now <- time_time ;;
  t <- deref self ;;
  store self (Task.set_next (now + Task.seconds t) t).

(** [Task.run] *)
Definition Task_run (self : loc) : M bool :=
  t <- deref self ;;
  match Task.qpointer t with
  | Some q => queue_put q ("schedule"%string, Task.callback t, Task.args t)
  | None => call (Task.callback t) (Task.args t) (Task.kwargs t)
  end ;;;
  Task_reset self ;;;
  t' <- deref self ;;
  ret (Task.repeat t').

(** ** Scheduler: the public operations *)

(** The initial state of a [Scheduler(stopevent)] in a world with the
    given clock. *)
Definition Scheduler__init__ (stopevent : bool) (clk : nat -> Q) : State :=
  mkState ∅ [] [] false stopevent 0 false [] clk 0 [].

(** The scan of [add]: [for task in self.schedule: if task.name == name: raise]. *)
Fixpoint add_scan (name : string) (tasks : list loc) : M unit :=
  match tasks with
  | [] => ret tt
  | task :: rest =>
      t <- deref task ;;
      if String.eqb (Task.name t) name
      then raise (UniqueKeyConstraint ("Key " +:+ name +:+ " already exists"))
      else add_scan name rest
  end.

Definition addq_put (task : loc) : M unit :=
  modify (fun s => set_addq (addq s ++ [task]) s).

(** [Scheduler.add]; its [except: raise] re-raises unchanged. *)
Definition add (name : string) (seconds : Q) (callback : callable)
    (args : option (list pyval)) (kwargs : option (list (string * pyval)))
    (repeat : bool) (qpointer : option qid) : M unit :=
  try_finally
    (acquire ;;;
     tasks <- gets schedule ;;
     add_scan name tasks ;;;
     task <- Task__init__ name seconds callback args kwargs repeat qpointer ;;
     addq_put task)
    release.

(** The scan of [remove]: the last task with the name wins. *)
Fixpoint remove_scan (name : string) (tasks : list loc)
    (the_task : option loc) : M (option loc) :=
  match tasks with
  | [] => ret the_task
  | task :: rest =>
      t <- deref task ;;
      if String.eqb (Task.name t) name
      then remove_scan name rest (Some task)
      else remove_scan name rest the_task
  end.

(** [self.schedule.remove(x)] *)
Definition schedule_remove (x : loc) : M unit :=
  fun s => match list_remove x (schedule s) with
           | Some l => (Ok tt, set_schedule l s)
           | None => (Raise ValueError, s)
           end.

(** [Scheduler.remove] *)
Definition remove (name : string) : M unit :=
  try_finally
    (acquire ;;;
     tasks <- gets schedule ;;
     the_task <- remove_scan name tasks None ;;
     match the_task with
     | Some task => schedule_remove task
     | None => ret tt
     end)
    release.

(** [Scheduler.quit] *)
Definition quit : M unit := modify (set_run false).

(** ** Scheduler: the processing loop *)

(** What other threads do while the loop does not hold the lock. *)
Inductive action :=
| CallAdd (name : string) (seconds : Q) (callback : callable)
          (args : option (list pyval)) (kwargs : option (list (string * pyval)))
          (repeat : bool) (qpointer : option qid)
| CallRemove (name : string)
| CallQuit
| SetStop.

(** An exception of such a call is raised in the calling thread, not in
    the loop. *)
Definition elsewhere {A} (m : M A) : M unit :=
  fun s => (Ok tt, snd (m s)).

Definition perform (a : action) : M unit :=
  match a with
  | CallAdd n sec cb ar kw rep q => elsewhere (add n sec cb ar kw rep q)
  | CallRemove n => elsewhere (remove n)
  | CallQuit => elsewhere quit
  | SetStop => modify (set_stop true)
  end.

Fixpoint concurrently (acts : list action) : M unit :=
  match acts with
  | [] => ret tt
  | a :: rest => perform a ;;; concurrently rest
  end.

(** The calls of the other threads, by the moment they take effect:
    before the loop condition of iteration [i] is evaluated, and during
    the queue read of iteration [i].  These are the only moments
    modelled: a call that lands between the two reads of
    [self.schedule] on lines 148-149, which are made without the lock,
    is not among them. *)
Record Env := mkEnv {
  before_check : nat -> list action;
  during_get : nat -> list action
}.

(** Lines 146-149: [wait = 1], then the delay to the first scheduled task. *)
Definition compute_wait : M Q :=
  tasks <- gets schedule ;;
  match tasks with
  | [] => ret 1%Q
  | first :: _ =>
      t <- deref first ;;
      now <- time_time ;;
      ret (Task.next t - now)%Q
  end.

(** [self.addq.get(block, timeout)]: with nothing queued once the wait is
    over, [queue.Empty]. *)
Definition addq_get (block : bool) (timeout : option Q) : M loc :=
  emit (AddqGet block timeout) ;;;
  q <- gets addq ;;
  match q with
  | [] => raise QueueEmpty
  | task :: rest => modify (set_addq rest) ;;; ret task
  end.

(** Lines 151-156. *)
Definition pop_pending (wait : Q) : M loc :=
  if Qle_bool wait 0 then addq_get false None
  else addq_get true (Some (if Qle_bool 3 wait then 3%Q else wait)).

(** Lines 160-166: the scan of the schedule. *)
Fixpoint for_schedule (tasks : list loc) : M unit :=
  match tasks with
  | [] => ret tt
  | task :: rest =>
      now <- time_time ;;
      t <- deref task ;;
      if Qle_bool (Task.next t) now then
        modify (set_updated true) ;;;
        again <- Task_run task ;;
        (if negb again
         then modify (fun s => set_cleanup (cleanup s ++ [task]) s)
         else ret tt) ;;;
        for_schedule rest
      else ret tt
  end.

(** [self.schedule.pop(self.schedule.index(task))] *)
Definition schedule_pop_index (task : loc) : M unit :=
  fun s => match index task (schedule s) with
           | Some i => (Ok tt, set_schedule (delete i (schedule s)) s)
           | None => (Raise ValueError, s)
           end.

(** Lines 167-168. *)
Fixpoint for_cleanup (tasks : list loc) : M unit :=
  match tasks with
  | [] => ret tt
  | task :: rest => schedule_pop_index task ;;; for_cleanup rest
  end.

(** Lines 158-168: the handler of [queue.Empty]. *)
Definition fire_due : M unit :=
  modify (set_cleanup []) ;;;
  acquire ;;;
  tasks <- gets schedule ;;
  for_schedule tasks ;;;
  marked <- gets cleanup ;;
  for_cleanup marked.

(** Lines 171-173: the [else] branch. *)
Definition merge (newtask : loc) : M unit :=
  modify (set_updated true) ;;;
  acquire ;;;
  modify (fun s => set_schedule (schedule s ++ [newtask]) s).

(** Lines 175-178: the [finally] clause. *)
Definition resort : M unit :=
  u <- gets updated ;;
  (if u
   then modify (fun s =>
          set_schedule
            (sorted (fun task => Task.next (heap s !!! task)) (schedule s)) s)
   else ret tt) ;;;
  release.

Definition is_Empty (e : exn) : bool :=
  match e with QueueEmpty => true | _ => false end.

(** Lines 146-178: one pass through the body of the [while]. *)
Definition iteration (others : list action) : M unit :=
  modify (set_updated false) ;;;
  wait <- compute_wait ;;
  try_finally
    (try_except_else
       (concurrently others ;;; pop_pending wait)
       is_Empty
       (fun _ => fire_due)
       merge)
    resort.

Inductive outcome :=
| Finished      (* the loop was left *)
| OutOfFuel.    (* the loop condition held once more *)

(** Line 145 onwards; [i] counts the passes. *)
Fixpoint while_loop (env : Env) (fuel : nat) (i : nat) : M outcome :=
  concurrently (before_check env i) ;;;
  r <- gets run ;;
  halted <- gets stop ;;
  if r && negb halted then
    match fuel with
    | O => ret OutOfFuel
    | S fuel' => iteration (during_get env i) ;;; while_loop env fuel' (S i)
    end
  else ret Finished.

Definition is_interrupt (e : exn) : bool :=
  match e with KeyboardInterrupt | SystemExit => true | _ => false end.

(** Lines 144 and 179-183: the [try] around the loop, its two handlers
    and the log line that follows. *)
Definition guarded (loop : M outcome) : M outcome :=
  r <- try_except loop is_interrupt
         (fun _ => modify (set_run false) ;;; ret Finished) ;;
  match r with
  | Finished => emit (LogDebug "Quitting Scheduler thread") ;;; ret Finished
  | OutOfFuel => ret OutOfFuel
  end.

(** [Scheduler._process] *)
Definition _process (env : Env) (fuel : nat) : M outcome :=
  modify (set_run true) ;;;
  guarded (while_loop env fuel O).

(** ** Vocabulary of the statements *)

(** The event a firing of task [t] leaves in the trace. *)
Definition firing (t : Task.t) : event :=
  match Task.qpointer t with
  | Some q => QueuePut q ("schedule"%string, Task.callback t, Task.args t)
  | None => Called (Task.callback t) (Task.args t) (Task.kwargs t)
  end.

(** The exception, if any, that firing [t] raises: only a direct call can. *)
Definition failure (t : Task.t) : option exn :=
  match Task.qpointer t with
  | Some _ => None
  | None => cb_body (Task.callback t) (Task.args t) (Task.kwargs t)
  end.

(** [self.next = now + self.seconds] on the object at [self]. *)
Definition retimed (self : loc) (now : Q) (h : gmap loc Task.t)
    : gmap loc Task.t :=
  <[self := Task.set_next (now + Task.seconds (h !!! self)) (h !!! self)]> h.

(** The test [task.name == name] on the object at [l]. *)
Definition has_name (name : string) (h : gmap loc Task.t) (l : loc) : bool :=
  String.eqb (Task.name (h !!! l)) name.

(** Some task of [active] carries [name]. *)
Definition name_in_active (name : string) (s : State) : Prop :=
  ∃ l, l ∈ schedule s ∧ Task.name (heap s !!! l) = name.

(** Every reference held by the scheduler points to a live object. *)
Definition no_dangling (s : State) : Prop :=
  ∀ l, l ∈ schedule s ++ addq s → l ∈ dom (heap s).

#[global] Instance Qle_transitive : Transitive Qle := Qle_trans.

(** [active] is in ascending order of [next]. *)
Definition is_sorted (s : State) : Prop :=
  Sorted Qle (map (λ l, Task.next (heap s !!! l)) (schedule s)).

(** The test [time.time() >= task.next] on the next clock reading. *)
Definition due_now (l : loc) (s : State) : bool :=
  Qle_bool (Task.next (heap s !!! l)) (clock s (ticks s)).

(** The state after one task of the scan has been found due and has
    fired without raising: two clock readings, the firing, the reset, and
    the mark for removal when [run()] answered false. *)
Definition fire_one (l : loc) (s : State) : State :=
  let t := heap s !!! l in
  set_cleanup (if Task.repeat t then cleanup s else cleanup s ++ [l])
    (set_heap (retimed l (clock s (S (ticks s))) (heap s))
       (set_ticks (S (S (ticks s)))
          (set_trace (trace s ++ [firing t])
             (set_updated true s)))).

Definition fire_all (due : list loc) (s : State) : State :=
  foldl (λ acc l, fire_one l acc) s due.

(** The wait computed at the top of a pass and the state it leaves:
    a clock reading is taken only when [active] is not empty. *)
Definition wait_of (s : State) : Q :=
  match schedule s with
  | [] => 1%Q
  | first :: _ => (Task.next (heap s !!! first) - clock s (ticks s))%Q
  end.

Definition after_wait (s : State) : State :=
  match schedule s with
  | [] => s
  | _ :: _ => set_ticks (S (ticks s)) s
  end.

(** The read of [pending] that a wait leads to. *)
Definition get_event (wait : Q) : event :=
  if Qle_bool wait 0 then AddqGet false None
  else AddqGet true (Some (if Qle_bool 3 wait then 3%Q else wait)).

(** [active] re-sorted on the current values of [next]. *)
Definition resorted (s : State) : State :=
  set_schedule (sorted (λ task, Task.next (heap s !!! task)) (schedule s)) s.

(** What every reachable state of the scheduler satisfies. *)
Definition invariant (s : State) : Prop :=
  no_dangling s ∧ is_sorted s.

(** The task objects held by the scheduler are distinct and alive. *)
Definition well_formed (s : State) : Prop :=
  NoDup (schedule s ++ addq s) ∧ no_dangling s.

(** Every task held by the scheduler satisfies [P]. *)
Definition tasks_satisfy (P : Task.t → Prop) (s : State) : Prop :=
  ∀ l, l ∈ schedule s ++ addq s → P (heap s !!! l).

(** Every task that a call of another thread creates satisfies [P]. *)
Definition action_satisfies (P : Task.t → Prop) (a : action) : Prop :=
  match a with
  | CallAdd n sec cb ar kw rep q =>
      ∀ now, P (Task.mk n sec cb (py_or ar []) (py_or kw []) rep now q)
  | _ => True
  end.

Definition env_satisfies (P : Task.t → Prop) (env : Env) : Prop :=
  ∀ i a, a ∈ before_check env i ∨ a ∈ during_get env i →
         action_satisfies P a.

(** A task whose firing is handed to an external queue. *)
Definition deferred (t : Task.t) : Prop := is_Some (Task.qpointer t).


Definition is_call (ev : event) : bool :=
  match ev with Called _ _ _ => true | _ => false end.

Definition is_quit (a : action) : bool :=
  match a with CallQuit => true | _ => false end.

Definition is_set_stop (a : action) : bool :=
  match a with SetStop => true | _ => false end.

(** The loop condition cannot hold in [s]. *)
Definition halted (s : State) : Prop := run s = false ∨ stop s = true.

(** A call that makes the loop condition fail for good. *)
Definition halts (a : action) : bool := is_quit a || is_set_stop a.

(** A live task object that is neither in [active] nor in [pending]. *)
Definition outside (l : loc) (s : State) : Prop :=
  l ∈ dom (heap s) ∧ l ∉ schedule s ++ addq s.

(** The events a run of the loop may leave when the tasks satisfy [P]:
    reads of [pending], firings of such tasks, and the final log line. *)
Definition loop_event (P : Task.t → Prop) (ev : event) : Prop :=
  (∃ block timeout, ev = AddqGet block timeout)
  ∨ (∃ t, P t ∧ ev = firing t)
  ∨ ev = LogDebug "Quitting Scheduler thread".

(** ** Sample data for the worked instances *)

Definition noop : callable := Callable 0 (fun _ _ => None).
Definition failing (e : exn) : callable := Callable 1 (fun _ _ => Some e).
Definition frozen (now : Q) : nat -> Q := fun _ => now.
Definition ticking : nat -> Q := fun n => inject_Z (Z.of_nat n).
Definition quiet : Env := mkEnv (fun _ => []) (fun _ => []).

(** Three tasks handed to [add] and merged by three passes of the loop:
    "once" and "ping" are due, "later" is not. *)
Definition three_merged : State :=
  let s0 := Scheduler__init__ false ticking in
  let s1 := snd (add "once" 1 noop None None false None s0) in
  let s2 := snd (add "ping" 1 noop None None true (Some 4%nat) s1) in
  let s3 := snd (add "later" 100 noop None None true None s2) in
  snd (_process quiet 3 s3).

(** The same with a second task whose callback raises [e]. *)
Definition one_raises (e : exn) : State :=
  let s0 := Scheduler__init__ false ticking in
  let s1 := snd (add "first" 1 noop None None true None s0) in
  let s2 := snd (add "boom" 1 (failing e) None None true None s1) in
  let s3 := snd (add "third" 1 noop None None true None s2) in
  snd (_process quiet 3 s3).

(** * Properties *)

(** ** Stepping through the monad *)

Lemma bind_ok {A B} (m : M A) (k : A -> M B) s a s' :
  m s = (Ok a, s') -> bind m k s = k a s'.
Proof. unfold bind; intros ->; reflexivity. Qed.

Lemma bind_raise {A B} (m : M A) (k : A -> M B) s e s' :
  m s = (Raise e, s') -> bind m k s = (Raise e, s').
Proof. unfold bind; intros ->; reflexivity. Qed.

Lemma state_eta (s : State) :
  mkState (heap s) (addq s) (schedule s) (run s) (stop s) (schedule_lock s)
          (updated s) (cleanup s) (clock s) (ticks s) (trace s) = s.
Proof. destruct s; reflexivity. Qed.

Ltac munfold :=
  unfold bind, ret, raise, gets, modify, emit, deref, store, time_time,
    call, queue_put, acquire, release, addq_put, Task_reset in *.

(** ** Task *)

Lemma Task_reset_eq (self : loc) (s : State) :
  Task_reset self s =
  (Ok tt, set_heap (retimed self (clock s (ticks s)) (heap s))
            (set_ticks (S (ticks s)) s)).
Proof. reflexivity. Qed.

Lemma Task_run_eq (self : loc) (s : State) :
  let t := heap s !!! self in
  let fired := set_trace (trace s ++ [firing t]) s in
  Task_run self s =
  match failure t with
  | None => (Ok (Task.repeat t),
             set_heap (retimed self (clock s (ticks s)) (heap s))
               (set_ticks (S (ticks s)) fired))
  | Some e => (Raise e, fired)
  end.
Proof.
  intros t fired. subst fired. unfold failure, firing.
  destruct (Task.qpointer t) as [q|] eqn:Hq.
  - unfold Task_run. munfold. cbn. fold t. rewrite Hq. cbn.
    unfold retimed. rewrite !lookup_total_insert_eq. reflexivity.
  - destruct (cb_body _ _ _) as [e|] eqn:Hb;
      unfold Task_run; munfold; cbn; fold t; rewrite Hq; cbn; rewrite Hb.
    + reflexivity.
    + cbn. unfold retimed. rewrite !lookup_total_insert_eq. reflexivity.
Qed.

Lemma retimed_next (self : loc) (now : Q) (h : gmap loc Task.t) :
  Task.next (retimed self now h !!! self)
  = (now + Task.seconds (h !!! self))%Q.
Proof. unfold retimed. rewrite lookup_total_insert_eq. reflexivity. Qed.

(** C4. [Task.run]: with a [qpointer] the 3-tuple
    [('schedule', callback, args)] is put on that queue and the callback is
    not called; without one the callback is called with the stored
    positional and keyword arguments.  When the firing returns, [next]
    is reset to the next clock reading plus [seconds] and the result is
    the [repeat] flag (a raising callback leaves [run] before the reset). *)
Theorem Task_run_spec (self : loc) (s : State) :
  let t := heap s !!! self in
  let after (ev : event) :=
    set_heap (retimed self (clock s (ticks s)) (heap s))
      (set_ticks (S (ticks s)) (set_trace (trace s ++ [ev]) s)) in
  match Task.qpointer t with
  | Some q =>
      let ev := QueuePut q ("schedule"%string, Task.callback t, Task.args t) in
      Task_run self s = (Ok (Task.repeat t), after ev)
      ∧ Task.next (heap (after ev) !!! self)
        = (clock s (ticks s) + Task.seconds t)%Q
  | None =>
      let ev := Called (Task.callback t) (Task.args t) (Task.kwargs t) in
      match cb_body (Task.callback t) (Task.args t) (Task.kwargs t) with
      | None =>
          Task_run self s = (Ok (Task.repeat t), after ev)
          ∧ Task.next (heap (after ev) !!! self)
            = (clock s (ticks s) + Task.seconds t)%Q
      | Some e =>
          Task_run self s = (Raise e, set_trace (trace s ++ [ev]) s)
      end
  end.
Proof.
  intros t after. pose proof (Task_run_eq self s) as Heq.
  cbn zeta in Heq. fold t in Heq. unfold failure, firing in Heq.
  subst after. cbn beta zeta.
  destruct (Task.qpointer t) as [q|].
  - split; [exact Heq|]. cbn. apply retimed_next.
  - destruct (cb_body _ _ _) as [e|].
    + exact Heq.
    + split; [exact Heq|]. cbn. apply retimed_next.
Qed.

Lemma Task__init___eq name sec cb a kw rep q (s : State) :
  Task__init__ name sec cb a kw rep q s =
  (Ok (fresh (dom (heap s))),
   set_heap (<[fresh (dom (heap s)) :=
                Task.mk name sec cb (py_or a []) (py_or kw []) rep
                        (clock s (ticks s) + sec)%Q q]> (heap s))
     (set_ticks (S (ticks s)) s)).
Proof. reflexivity. Qed.

(** ** add *)

Lemma add_scan_eq name tasks (s : State) :
  add_scan name tasks s =
  if existsb (has_name name (heap s)) tasks
  then (Raise (UniqueKeyConstraint ("Key " +:+ name +:+ " already exists")), s)
  else (Ok tt, s).
Proof.
  induction tasks as [|task rest IH]; [reflexivity|].
  cbn. munfold. cbn. unfold has_name at 1.
  destruct (String.eqb _ _); [reflexivity|]. cbn. exact IH.
Qed.

Lemma name_in_active_existsb name (s : State) :
  name_in_active name s ↔ existsb (has_name name (heap s)) (schedule s) = true.
Proof.
  unfold name_in_active. rewrite existsb_exists. unfold has_name.
  split; intros (l & Hl & Hn); exists l.
  - split; [by apply list_elem_of_In|]. by apply String.eqb_eq.
  - split; [by apply list_elem_of_In|]. by apply String.eqb_eq.
Qed.

Lemma add_eq name sec cb a kw rep q (s : State) :
  add name sec cb a kw rep q s =
  if existsb (has_name name (heap s)) (schedule s)
  then (Raise (UniqueKeyConstraint ("Key " +:+ name +:+ " already exists")), s)
  else (Ok tt,
        set_addq (addq s ++ [fresh (dom (heap s))])
          (set_heap (<[fresh (dom (heap s)) :=
                       Task.mk name sec cb (py_or a []) (py_or kw []) rep
                               (clock s (ticks s) + sec)%Q q]> (heap s))
             (set_ticks (S (ticks s)) s))).
Proof.
  unfold add, try_finally. unfold bind at 1. unfold acquire at 1, modify.
  unfold bind at 1. unfold gets at 1. cbn [schedule set_lock].
  unfold bind at 1. rewrite add_scan_eq. cbn [heap set_lock].
  destruct (existsb _ _).
  - cbn. destruct s; reflexivity.
  - unfold bind. rewrite Task__init___eq. cbn. destruct s; reflexivity.
Qed.

(** C2. [add(name, ...)] raises [UniqueKeyConstraint] exactly when a task
    of [active] carries [name], and then leaves the whole state as it
    was; otherwise it builds a fresh [Task] and appends it to [pending],
    [active] untouched.  Tasks that sit in [pending] are not looked at:
    a second [add] of the same name before any merge succeeds too. *)
Theorem add_spec name sec cb a kw rep q (s : State) :
  let msg := ("Key " +:+ name +:+ " already exists")%string in
  let l := fresh (dom (heap s)) in
  let accepted :=
    set_addq (addq s ++ [l])
      (set_heap (<[l := Task.mk name sec cb (py_or a []) (py_or kw []) rep
                            (clock s (ticks s) + sec)%Q q]> (heap s))
         (set_ticks (S (ticks s)) s)) in
  (fst (add name sec cb a kw rep q s) = Raise (UniqueKeyConstraint msg)
   ↔ name_in_active name s)
  ∧ (name_in_active name s →
     add name sec cb a kw rep q s = (Raise (UniqueKeyConstraint msg), s))
  ∧ (¬ name_in_active name s →
     add name sec cb a kw rep q s = (Ok tt, accepted))
  ∧ schedule accepted = schedule s
  ∧ addq accepted = addq s ++ [l]
  ∧ (l ∉ dom (heap s))
  ∧ Task.name (heap accepted !!! l) = name
  ∧ (no_dangling s → ¬ name_in_active name s →
     ∀ sec' cb' a' kw' rep' q',
       fst (add name sec' cb' a' kw' rep' q' accepted) = Ok tt).
Proof.
  intros msg l accepted.
  assert (Hfresh : l ∉ dom (heap s)) by apply is_fresh.
  pose proof (name_in_active_existsb name s) as Hiff.
  repeat split.
  - rewrite add_eq. destruct (existsb _ _); cbn; [tauto|discriminate].
  - intros Hin. rewrite add_eq. apply Hiff in Hin. rewrite Hin. reflexivity.
  - intros Hin. rewrite add_eq. apply Hiff in Hin. rewrite Hin. reflexivity.
  - intros Hno. rewrite add_eq. destruct (existsb _ _); [|reflexivity].
    exfalso. apply Hno. tauto.
  - exact Hfresh.
  - cbn. rewrite lookup_total_insert_eq. reflexivity.
  - intros Hwf Hno sec' cb' a' kw' rep' q'. rewrite add_eq.
    destruct (existsb (has_name name (heap accepted)) (schedule accepted))
      eqn:Hex; [|reflexivity].
    exfalso. apply Hno. apply name_in_active_existsb in Hex.
    destruct Hex as (l' & Hl' & Hn). cbn in Hl', Hn. exists l'.
    split; [exact Hl'|]. rewrite lookup_total_insert_ne in Hn; [exact Hn|].
    intros <-. apply Hfresh. apply Hwf. apply elem_of_app. by left.
Qed.

Lemma add_spec_witness :
  no_dangling (Scheduler__init__ false ticking)
  ∧ ¬ name_in_active "ping" (Scheduler__init__ false ticking)
  ∧ fst (add "ping" 2 noop None None true None
           (snd (add "ping" 1 noop None None false None
                   (Scheduler__init__ false ticking)))) = Ok tt.
Proof.
  assert (Hwf : no_dangling (Scheduler__init__ false ticking)).
  { intros l Hl. cbn in Hl. by apply elem_of_nil in Hl. }
  assert (Hno : ¬ name_in_active "ping" (Scheduler__init__ false ticking)).
  { intros (l & Hl & _). cbn in Hl. by apply elem_of_nil in Hl. }
  split; [exact Hwf|]. split; [exact Hno|].
  pose proof (add_spec "ping" 1 noop None None false None
                (Scheduler__init__ false ticking)) as H.
  cbn zeta in H.
  destruct H as (_ & _ & Hok & _ & _ & _ & _ & Htwice).
  rewrite (Hok Hno). cbn [snd].
  exact (Htwice Hwf Hno 2%Q noop None None true None).
Defined.

(** C9 (amended). Right after construction and right after every
    [reset()] (the one inside [run()] included) [next] is the clock
    reading taken by that call plus [seconds], so it is not before
    that reading whenever [seconds] is not negative.  Nothing makes
    [seconds] positive: whether [add] accepts a task does not depend on
    its [seconds]. *)
Theorem next_is_reading_plus_seconds (s : State) :
  let now := clock s (ticks s) in
  (∀ name sec cb a kw rep q,
     ∃ l s', Task__init__ name sec cb a kw rep q s = (Ok l, s')
       ∧ Task.next (heap s' !!! l) = (now + sec)%Q
       ∧ ((0 <= sec)%Q → (now <= Task.next (heap s' !!! l))%Q))
  ∧ (∀ self,
     ∃ s', Task_reset self s = (Ok tt, s')
       ∧ Task.seconds (heap s' !!! self) = Task.seconds (heap s !!! self)
       ∧ Task.next (heap s' !!! self)
         = (now + Task.seconds (heap s !!! self))%Q
       ∧ ((0 <= Task.seconds (heap s !!! self))%Q →
          (now <= Task.next (heap s' !!! self))%Q))
  ∧ (∀ self again s',
     Task_run self s = (Ok again, s') →
     Task.next (heap s' !!! self)
       = (now + Task.seconds (heap s !!! self))%Q
     ∧ ((0 <= Task.seconds (heap s !!! self))%Q →
        (now <= Task.next (heap s' !!! self))%Q))
  ∧ (∀ name sec sec' cb a kw rep q,
     fst (add name sec cb a kw rep q s)
     = fst (add name sec' cb a kw rep q s)).
Proof.
  intros now. split_and!.
  - intros name sec cb a kw rep q. eexists _, _.
    rewrite Task__init___eq. split; [reflexivity|]. cbn.
    rewrite lookup_total_insert_eq. cbn. fold now.
    split; [reflexivity|]. intros H. lra.
  - intros self. eexists. rewrite Task_reset_eq.
    split; [reflexivity|]. cbn. unfold retimed.
    rewrite lookup_total_insert_eq. cbn. fold now.
    split_and!; try reflexivity. intros H. lra.
  - intros self again s' Hrun.
    rewrite Task_run_eq in Hrun. cbn zeta in Hrun.
    destruct (failure _); [discriminate|].
    inversion Hrun; subst. cbn. rewrite retimed_next. fold now.
    split; [reflexivity|]. intros H. lra.
  - intros name sec sec' cb a kw rep q. rewrite !add_eq.
    by destruct (existsb _ _).
Qed.

Lemma next_is_reading_plus_seconds_witness :
  let s := Scheduler__init__ false (frozen 10) in
  ∃ l s', Task__init__ "ping" 1 noop None None true None s = (Ok l, s')
          ∧ (clock s (ticks s) <= Task.next (heap s' !!! l))%Q.
Proof.
  intros s.
  destruct (next_is_reading_plus_seconds s) as (Hinit & _).
  destruct (Hinit "ping"%string 1%Q noop None None true None)
    as (l & s' & Hrun & _ & Hle).
  exists l, s'. split; [exact Hrun|]. apply Hle. unfold Qle. cbn. lia.
Defined.

(** C9, as stated, fails: [add] accepts a negative [seconds], and the
    task it queues is born with [next] before the clock reading. *)
Lemma negative_seconds_accepted :
  let s0 := Scheduler__init__ false (frozen 10) in
  let r := add "late" (-5) noop None None false None s0 in
  fst r = Ok tt
  ∧ addq (snd r) = [0%nat]
  ∧ Task.seconds (heap (snd r) !!! 0%nat) = (-5)%Q
  ∧ (Task.next (heap (snd r) !!! 0%nat) < clock s0 (ticks s0))%Q.
Proof. vm_compute. repeat split; reflexivity. Qed.

(** ** remove *)

Lemma remove_scan_eq name tasks the_task (s : State) :
  remove_scan name tasks the_task s =
  (Ok (match last (List.filter (has_name name (heap s)) tasks) with
       | Some l => Some l
       | None => the_task
       end), s).
Proof.
  revert the_task. induction tasks as [|task rest IH]; intros the_task.
  - reflexivity.
  - cbn [remove_scan List.filter]. unfold bind, deref, gets.
    change (String.eqb (Task.name (heap s !!! task)) name)
      with (has_name name (heap s) task).
    destruct (has_name name (heap s) task).
    + rewrite IH, last_cons. by destruct (last _).
    + apply IH.
Qed.

Lemma list_remove_first (x : loc) (l : list loc) :
  x ∈ l →
  ∃ pre post, l = pre ++ x :: post ∧ (x ∉ pre)
              ∧ list_remove x l = Some (pre ++ post).
Proof.
  induction l as [|y l IH]; intros Hin.
  - by apply elem_of_nil in Hin.
  - cbn. destruct (decide (y = x)) as [->|Hne].
    + exists [], l. split; [reflexivity|]. split; [apply not_elem_of_nil|done].
    + apply elem_of_cons in Hin as [->|Hin]; [done|].
      destruct (IH Hin) as (pre & post & -> & Hpre & ->).
      exists (y :: pre), post. split; [reflexivity|]. split; [|reflexivity].
      intros [->|H]%elem_of_cons; [done|]. by apply Hpre.
Qed.

Lemma last_named_elem name (h : gmap loc Task.t) tasks l :
  last (List.filter (has_name name h) tasks) = Some l →
  ∃ pre post, tasks = pre ++ l :: post ∧ has_name name h l = true
              ∧ List.filter (has_name name h) post = [].
Proof.
  induction tasks as [|y tasks IH]; intros Hlast; [discriminate|].
  cbn in Hlast. destruct (has_name name h y) eqn:Hy.
  - rewrite last_cons in Hlast.
    destruct (last (List.filter _ tasks)) as [l'|] eqn:Hl'.
    + inversion Hlast; subst l'.
      destruct (IH eq_refl) as (pre & post & -> & Hn & Hpost).
      by exists (y :: pre), post.
    + inversion Hlast; subst y. apply last_None in Hl'.
      by exists [], tasks.
  - destruct (IH Hlast) as (pre & post & -> & Hn & Hpost).
    by exists (y :: pre), post.
Qed.

Lemma remove_eq name (s : State) :
  remove name s =
  match last (List.filter (has_name name (heap s)) (schedule s)) with
  | None => (Ok tt, s)
  | Some l => match list_remove l (schedule s) with
              | Some rest => (Ok tt, set_schedule rest s)
              | None => (Raise ValueError, s)
              end
  end.
Proof.
  unfold remove, try_finally. unfold bind at 1. unfold acquire at 1, modify.
  unfold bind at 1. unfold gets at 1. cbn [schedule set_lock].
  unfold bind at 1. rewrite remove_scan_eq. cbn [heap set_lock].
  destruct (last _) as [l|].
  - unfold schedule_remove. cbn [schedule set_lock].
    destruct (list_remove _ _); cbn; destruct s; reflexivity.
  - cbn. destruct s; reflexivity.
Qed.

Lemma named_nil_iff name (s : State) :
  List.filter (has_name name (heap s)) (schedule s) = []
  ↔ ¬ name_in_active name s.
Proof.
  rewrite name_in_active_existsb. split.
  - intros Hnil Hex. apply existsb_exists in Hex as (l & Hl & Hn).
    assert (In l (List.filter (has_name name (heap s)) (schedule s)))
      as Hin by (apply filter_In; done).
    rewrite Hnil in Hin. destruct Hin.
  - intros Hno.
    destruct (List.filter _ _) as [|l r] eqn:Hf; [reflexivity|].
    exfalso. apply Hno. apply existsb_exists. exists l.
    apply filter_In. rewrite Hf. by left.
Qed.

(** X15. [remove(name)] on the code as it is: it never raises and never
    touches [pending] or the tasks themselves.  With no task of that
    name in [active] it changes nothing; otherwise it deletes one entry
    of [active], the last task carrying the name, and leaves one entry
    fewer with that name.  A second call has no further effect when
    [active] held at most one task of that name. *)
Theorem remove_spec name (s : State) :
  let named := List.filter (has_name name (heap s)) in
  ∃ s', remove name s = (Ok tt, s')
    ∧ addq s' = addq s
    ∧ heap s' = heap s
    ∧ (¬ name_in_active name s → s' = s)
    ∧ (name_in_active name s →
       ∃ pre l post,
         schedule s = pre ++ l :: post
         ∧ (l ∉ pre)
         ∧ last (named (schedule s)) = Some l
         ∧ Task.name (heap s !!! l) = name
         ∧ s' = set_schedule (pre ++ post) s)
    ∧ length (named (schedule s')) = pred (length (named (schedule s)))
    ∧ (length (named (schedule s)) ≤ 1 → remove name s' = (Ok tt, s')).
Proof.
  intros named. rewrite remove_eq. fold named.
  destruct (last (named (schedule s))) as [l|] eqn:Hlast.
  - destruct (last_named_elem _ _ _ _ Hlast) as (pre0 & post0 & Hs & Hn & _).
    assert (Hin : l ∈ schedule s).
    { rewrite Hs. apply elem_of_app. right. by left. }
    destruct (list_remove_first l (schedule s) Hin)
      as (pre & post & Hsplit & Hpre & Hrm).
    rewrite Hrm. eexists. split; [reflexivity|]. cbn.
    assert (Hact : name_in_active name s).
    { exists l. split; [exact Hin|]. by apply String.eqb_eq. }
    assert (Hlen : length (named (pre ++ post))
                   = pred (length (named (schedule s)))).
    { rewrite Hsplit. subst named. cbn beta.
      rewrite !List.filter_app. cbn [List.filter]. rewrite Hn.
      rewrite !length_app. cbn [length]. lia. }
    repeat split.
    + intros Hno. by destruct Hno.
    + intros _. exists pre, l, post. repeat split; try done.
      by apply String.eqb_eq.
    + exact Hlen.
    + intros Hle. rewrite remove_eq. cbn [heap schedule set_schedule].
      fold named.
      assert (Hnil : named (pre ++ post) = []).
      { apply length_zero_iff_nil. lia. }
      rewrite Hnil. reflexivity.
  - apply last_None in Hlast. exists s. split; [reflexivity|].
    repeat split.
    + intros Hact. exfalso. by apply (named_nil_iff name s) in Hact.
    + rewrite Hlast. reflexivity.
    + intros _. rewrite remove_eq. fold named. rewrite Hlast. reflexivity.
Qed.

Lemma remove_spec_witness :
  let s0 := Scheduler__init__ false ticking in
  let s1 := snd (add "x" 1 noop None None false None s0) in
  let s2 := snd (_process quiet 1 s1) in
  ∃ s', remove "x" s2 = (Ok tt, s') ∧ remove "x" s' = (Ok tt, s').
Proof.
  intros s0 s1 s2.
  destruct (remove_spec "x" s2) as (s' & Hfirst & _ & _ & _ & _ & _ & Hidem).
  exists s'. split; [exact Hfirst|]. apply Hidem. vm_compute. lia.
Defined.

(** C8. [remove(name)] is meant to delete the one task of that name and
    to be idempotent, and it is as long as names are unique in [active].
    The code breaks this through the defect of C6: after two
    [add("x", ...)] calls made before the loop merges anything,
    [active] holds two tasks named "x", the first [remove("x")] deletes
    only one of them, and the second call deletes the other instead of
    having no effect. *)
Lemma remove_not_idempotent :
  let s0 := Scheduler__init__ false ticking in
  let s1 := snd (add "x" 1 noop None None false None s0) in
  let s2 := snd (add "x" 1 noop None None false None s1) in
  let s3 := snd (_process quiet 2 s2) in
  let once := snd (remove "x" s3) in
  let twice := snd (remove "x" once) in
  map (λ l, Task.name (heap s3 !!! l)) (schedule s3) = ["x"; "x"]%string
  ∧ schedule s3 = [0; 1]%nat
  ∧ schedule once = [0]%nat
  ∧ schedule twice = []
  ∧ twice ≠ once.
Proof.
  vm_compute. repeat split. intros H. discriminate H.
Qed.

(** ** The wait of the queue read *)

(** C5. The wait of a pass is [active[0].next - now] when [active] is not
    empty and 1 second when it is; a wait that is not positive makes the
    read of [pending] non-blocking, a positive one makes it blocking with
    that wait as timeout, cut down to 3 seconds when it is 3 or more, so
    the timeout is never above 3. *)
Theorem wait_spec (s : State) :
  let wait := match schedule s with
              | [] => 1%Q
              | first :: _ =>
                  (Task.next (heap s !!! first) - clock s (ticks s))%Q
              end in
  let after := match schedule s with
               | [] => s
               | _ :: _ => set_ticks (S (ticks s)) s
               end in
  compute_wait s = (Ok wait, after)
  ∧ ((wait <= 0)%Q → pop_pending wait = addq_get false None)
  ∧ ((0 < wait)%Q →
     ∃ timeout, pop_pending wait = addq_get true (Some timeout)
       ∧ (0 < timeout)%Q
       ∧ (timeout <= 3)%Q
       ∧ ((wait < 3)%Q → timeout = wait)
       ∧ ((3 <= wait)%Q → timeout = 3%Q)).
Proof.
  intros wait after. split; [|split].
  - unfold compute_wait. munfold. subst wait after.
    destruct (schedule s); reflexivity.
  - intros Hle. unfold pop_pending.
    apply Qle_bool_iff in Hle. rewrite Hle. reflexivity.
  - intros Hpos. unfold pop_pending.
    destruct (Qle_bool wait 0) eqn:H0.
    { apply Qle_bool_iff in H0. lra. }
    destruct (Qle_bool 3 wait) eqn:H3.
    + apply Qle_bool_iff in H3. exists 3%Q.
      repeat split; intros; lra.
    + assert (Hlt : (wait < 3)%Q).
      { destruct (Qlt_le_dec wait 3) as [Hlt|Hge]; [exact Hlt|].
        apply Qle_bool_iff in Hge. congruence. }
      exists wait. repeat split; intros; lra.
Qed.

Lemma wait_spec_witness :
  let s0 := Scheduler__init__ false ticking in
  ∃ timeout, pop_pending 1 = addq_get true (Some timeout)
             ∧ (0 < timeout <= 3)%Q.
Proof.
  intros s0.
  destruct (wait_spec s0) as (_ & _ & Hblock). cbn in Hblock.
  destruct (Hblock ltac:(reflexivity)) as (t & Heq & Hpos & Hle & _).
  exists t. split; [exact Heq|]. split; assumption.
Defined.

(** ** Entering the loop *)

Lemma elsewhere_ok {A} (m : M A) (s : State) :
  elsewhere m s = (Ok tt, snd (m s)).
Proof. reflexivity. Qed.

Lemma perform_ok (a : action) (s : State) :
  perform a s = (Ok tt, snd (perform a s)).
Proof. destruct a; reflexivity. Qed.

Lemma concurrently_ok (acts : list action) (s : State) :
  concurrently acts s = (Ok tt, snd (concurrently acts s)).
Proof.
  revert s. induction acts as [|a acts IH]; intros s; [reflexivity|].
  cbn [concurrently]. unfold bind. rewrite perform_ok. rewrite IH at 1.
  cbn [snd]. rewrite <- IH. reflexivity.
Qed.

Lemma while_loop_eq (env : Env) (fuel i : nat) (s : State) :
  while_loop env fuel i s =
  let s1 := snd (concurrently (before_check env i) s) in
  if run s1 && negb (stop s1) then
    match fuel with
    | O => (Ok OutOfFuel, s1)
    | S fuel' =>
        (iteration (during_get env i) ;;; while_loop env fuel' (S i)) s1
    end
  else (Ok Finished, s1).
Proof.
  destruct fuel; cbn [while_loop]; unfold bind at 1;
    rewrite concurrently_ok; unfold bind at 1 2, gets; cbn zeta;
    destruct (run _ && negb (stop _)); reflexivity.
Qed.

(** C10. [_process] sets [run] to true before it first evaluates the loop
    condition: a [quit()] made before [_process] starts changes nothing
    in what [_process] does, and with the stop event unset the condition
    holds at the first evaluation.  A [quit()] that lands after the entry
    and before that evaluation makes the loop end without a pass. *)
Theorem quit_before_process_overridden (env : Env) (s : State) :
  run (snd (quit s)) = false
  ∧ (∀ fuel, _process env fuel (snd (quit s)) = _process env fuel s)
  ∧ (stop s = false → before_check env 0 = [] →
     _process env 0 (snd (quit s)) = (Ok OutOfFuel, set_run true s)
     ∧ ∀ fuel,
         _process env (S fuel) (snd (quit s)) =
         guarded (iteration (during_get env 0) ;;; while_loop env fuel 1)
                 (set_run true s))
  ∧ (before_check env 0 = [CallQuit] →
     ∀ fuel,
       _process env fuel s =
       (Ok Finished,
        set_trace (trace s ++ [LogDebug "Quitting Scheduler thread"])
          (set_run false s))).
Proof.
  split; [reflexivity|]. split; [reflexivity|]. split.
  - intros Hstop Hquiet. split.
    + unfold _process, guarded, try_except, try_except_else. munfold. cbn.
      rewrite Hquiet. cbn. rewrite Hstop. reflexivity.
    + intros fuel. unfold _process. unfold bind at 1. unfold modify at 1.
      cbn [snd quit modify].
      change (set_run true (set_run false s)) with (set_run true s).
      unfold guarded, try_except, try_except_else, bind at 1 3.
      rewrite while_loop_eq, Hquiet. cbn [concurrently ret snd run stop set_run].
      rewrite Hstop. reflexivity.
  - intros Hquit fuel.
    unfold _process, guarded, try_except, try_except_else. munfold.
    rewrite while_loop_eq, Hquit. cbn. destruct s; reflexivity.
Qed.

Lemma quit_before_process_overridden_witness :
  let s := Scheduler__init__ false ticking in
  _process quiet 0 (snd (quit s)) = (Ok OutOfFuel, set_run true s)
  ∧ _process (mkEnv (fun _ => [CallQuit]) (fun _ => [])) 5 s =
    (Ok Finished,
     set_trace (trace s ++ [LogDebug "Quitting Scheduler thread"])
       (set_run false s)).
Proof.
  intros s. split.
  - destruct (quit_before_process_overridden quiet s)
      as (_ & _ & Hruns & _).
    apply (Hruns eq_refl eq_refl).
  - destruct (quit_before_process_overridden
                (mkEnv (fun _ => [CallQuit]) (fun _ => [])) s)
      as (_ & _ & _ & Hstops).
    apply (Hstops eq_refl).
Defined.

(** ** The scan of the due tasks *)

Lemma for_schedule_fire (l : loc) (rest : list loc) (s : State) :
  due_now l s = true → failure (heap s !!! l) = None →
  for_schedule (l :: rest) s = for_schedule rest (fire_one l s).
Proof.
  intros Hdue Hok. cbn [for_schedule].
  unfold bind at 1. unfold time_time at 1.
  unfold bind at 1. unfold deref at 1, gets. cbn [heap set_ticks].
  unfold due_now in Hdue. rewrite Hdue.
  unfold bind at 1. unfold modify at 1.
  unfold bind at 1. rewrite Task_run_eq. cbn zeta.
  cbn [heap set_ticks set_updated trace clock ticks].
  rewrite Hok. unfold fire_one.
  destruct (Task.repeat (heap s !!! l)); cbn [negb]; unfold bind, modify, ret;
    reflexivity.
Qed.

Lemma for_schedule_break (l : loc) (rest : list loc) (s : State) :
  due_now l s = false →
  for_schedule (l :: rest) s = (Ok tt, set_ticks (S (ticks s)) s).
Proof.
  intros Hdue. cbn [for_schedule].
  unfold bind at 1. unfold time_time at 1.
  unfold bind at 1. unfold deref at 1, gets. cbn [heap set_ticks].
  unfold due_now in Hdue. rewrite Hdue. reflexivity.
Qed.

Lemma for_schedule_raise (l : loc) (rest : list loc) (s : State) (e : exn) :
  due_now l s = true → failure (heap s !!! l) = Some e →
  for_schedule (l :: rest) s =
  (Raise e,
   set_trace (trace s ++ [firing (heap s !!! l)])
     (set_updated true (set_ticks (S (ticks s)) s))).
Proof.
  intros Hdue Hfail. cbn [for_schedule].
  unfold bind at 1. unfold time_time at 1.
  unfold bind at 1. unfold deref at 1, gets. cbn [heap set_ticks].
  unfold due_now in Hdue. rewrite Hdue.
  unfold bind at 1. unfold modify at 1.
  unfold bind at 1. rewrite Task_run_eq. cbn zeta.
  cbn [heap set_ticks set_updated trace clock ticks].
  rewrite Hfail. reflexivity.
Qed.

Lemma retimed_lookup (l l' : loc) (now : Q) (h : gmap loc Task.t) :
  retimed l now h !!! l' =
  if decide (l = l')
  then Task.set_next (now + Task.seconds (h !!! l)) (h !!! l)
  else h !!! l'.
Proof.
  unfold retimed. destruct (decide (l = l')) as [->|Hne].
  - by rewrite lookup_total_insert_eq.
  - by rewrite lookup_total_insert_ne.
Qed.

Lemma retimed_static {B} (f : Task.t → B) (l l' : loc) (now : Q)
    (h : gmap loc Task.t) :
  (∀ v t, f (Task.set_next v t) = f t) →
  f (retimed l now h !!! l') = f (h !!! l').
Proof.
  intros Hf. rewrite retimed_lookup.
  destruct (decide (l = l')) as [->|]; [apply Hf|reflexivity].
Qed.

Lemma fire_all_cons (l : loc) (due : list loc) (s : State) :
  fire_all (l :: due) s = fire_all due (fire_one l s).
Proof. reflexivity. Qed.

Lemma fire_all_frame (due : list loc) (s : State) :
  schedule (fire_all due s) = schedule s
  ∧ addq (fire_all due s) = addq s
  ∧ run (fire_all due s) = run s
  ∧ stop (fire_all due s) = stop s
  ∧ schedule_lock (fire_all due s) = schedule_lock s
  ∧ clock (fire_all due s) = clock s
  ∧ ticks (fire_all due s) = (ticks s + 2 * length due)%nat.
Proof.
  revert s. induction due as [|l due IH]; intros s.
  - cbn. repeat split; lia.
  - rewrite fire_all_cons.
    destruct (IH (fire_one l s)) as (-> & -> & -> & -> & -> & -> & ->).
    cbn. repeat split; lia.
Qed.

Lemma fire_all_static {B} (f : Task.t → B) (due : list loc) (s : State)
    (l' : loc) :
  (∀ v t, f (Task.set_next v t) = f t) →
  f (heap (fire_all due s) !!! l') = f (heap s !!! l').
Proof.
  intros Hf. revert s. induction due as [|l due IH]; intros s; [reflexivity|].
  rewrite fire_all_cons, IH. cbn. by apply retimed_static.
Qed.

Lemma fire_all_trace (due : list loc) (s : State) :
  trace (fire_all due s)
  = trace s ++ map (λ l, firing (heap s !!! l)) due.
Proof.
  revert s. induction due as [|l due IH]; intros s.
  - cbn. by rewrite app_nil_r.
  - rewrite fire_all_cons, IH. cbn [map]. cbn [fire_one trace set_cleanup
      set_heap set_ticks set_trace]. rewrite <- app_assoc. cbn [app].
    do 2 f_equal. apply map_ext. intros l'. cbn.
    unfold firing. by rewrite !(retimed_static _ l l').
Qed.

Lemma fire_all_cleanup (due : list loc) (s : State) :
  cleanup (fire_all due s)
  = cleanup s ++ List.filter (λ l, negb (Task.repeat (heap s !!! l))) due.
Proof.
  revert s. induction due as [|l due IH]; intros s.
  - cbn. by rewrite app_nil_r.
  - rewrite fire_all_cons, IH. cbn [List.filter].
    assert (Hext : List.filter
              (λ l0, negb (Task.repeat (heap (fire_one l s) !!! l0))) due
            = List.filter (λ l0, negb (Task.repeat (heap s !!! l0))) due).
    { apply List.filter_ext. intros l'. cbn.
      by rewrite (retimed_static Task.repeat). }
    rewrite Hext. cbn [fire_one cleanup set_cleanup].
    destruct (Task.repeat (heap s !!! l)); cbn [negb].
    + reflexivity.
    + by rewrite <- app_assoc.
Qed.


Lemma fire_all_untouched (due : list loc) (s : State) (l' : loc) :
  l' ∉ due → heap (fire_all due s) !!! l' = heap s !!! l'.
Proof.
  revert s. induction due as [|l due IH]; intros s Hnot; [reflexivity|].
  apply not_elem_of_cons in Hnot as [Hne Hnot].
  rewrite fire_all_cons, IH by exact Hnot. cbn.
  rewrite retimed_lookup. by destruct (decide (l = l')).
Qed.


Lemma fire_all_dom (due : list loc) (s : State) :
  (∀ l, l ∈ due → l ∈ dom (heap s)) →
  dom (heap (fire_all due s)) = dom (heap s).
Proof.
  revert s. induction due as [|l due IH]; intros s Hin; [reflexivity|].
  assert (Hd : dom (heap (fire_one l s)) = dom (heap s)).
  { cbn. unfold retimed. rewrite dom_insert_L.
    assert (Hl : l ∈ dom (heap s)) by (apply Hin; by left).
    apply set_eq. intros x. rewrite elem_of_union, elem_of_singleton.
    split; [intros [->|Hx]; assumption|by right]. }
  rewrite fire_all_cons, IH, Hd; [reflexivity|].
  intros l' Hl'. rewrite Hd. apply Hin. by right.
Qed.

Lemma due_now_true (l : loc) (s : State) :
  due_now l s = true ↔ (Task.next (heap s !!! l) <= clock s (ticks s))%Q.
Proof. unfold due_now. apply Qle_bool_iff. Qed.

Lemma due_now_false (l : loc) (s : State) :
  due_now l s = false ↔ (clock s (ticks s) < Task.next (heap s !!! l))%Q.
Proof.
  rewrite <- not_true_iff_false, due_now_true. split.
  - apply Qnot_le_lt.
  - apply Qlt_not_le.
Qed.

Lemma failure_static v t : failure (Task.set_next v t) = failure t.
Proof. reflexivity. Qed.

(** The scan splits the list it walks into the tasks it fires and the
    tasks it leaves, provided no fired callback raises. *)
Lemma for_schedule_spec (tasks : list loc) (s : State) :
  NoDup tasks →
  (∀ l, l ∈ tasks → failure (heap s !!! l) = None) →
  ∃ due rest,
    tasks = due ++ rest
    ∧ for_schedule tasks s =
      (Ok tt, match rest with
              | [] => fire_all due s
              | _ :: _ =>
                  set_ticks (S (ticks (fire_all due s))) (fire_all due s)
              end)
    ∧ (∀ i l, due !! i = Some l →
         (Task.next (heap s !!! l) <= clock s (ticks s + 2 * i)%nat)%Q)
    ∧ (∀ l, head rest = Some l →
         (clock s (ticks s + 2 * length due)%nat
          < Task.next (heap s !!! l))%Q).
Proof.
  revert s. induction tasks as [|l tasks IH]; intros s Hnd Hok.
  - exists [], []. repeat split; intros; discriminate.
  - apply NoDup_cons in Hnd as [Hnot Hnd].
    destruct (due_now l s) eqn:Hdue.
    + assert (Hl : failure (heap s !!! l) = None) by (apply Hok; by left).
      destruct (IH (fire_one l s) Hnd) as (due & rest & -> & Hrun & Hd & Hr).
      { intros l' Hl'. cbn. rewrite (retimed_static failure).
        - apply Hok. by right.
        - apply failure_static. }
      assert (Hsame : ∀ l', l' ∈ due ++ rest →
                heap (fire_one l s) !!! l' = heap s !!! l').
      { intros l' Hl'. cbn. rewrite retimed_lookup.
        destruct (decide (l = l')) as [->|]; [done|reflexivity]. }
      exists (l :: due), rest. split; [reflexivity|]. split; [|split].
      * rewrite for_schedule_fire by assumption. rewrite Hrun.
        reflexivity.
      * intros [|i] l' Hi; cbn in Hi.
        -- inversion Hi; subst l'. apply due_now_true in Hdue.
           by replace (ticks s + 2 * 0)%nat with (ticks s) by lia.
        -- specialize (Hd i l' Hi). rewrite Hsame in Hd.
           ++ cbn in Hd.
              by replace (ticks s + 2 * S i)%nat
                with (S (S (ticks s + 2 * i)))%nat by lia.
           ++ apply elem_of_app. left. by eapply list_elem_of_lookup_2.
      * intros l' Hh. specialize (Hr l' Hh). rewrite Hsame in Hr.
        -- cbn in Hr. cbn [length].
           by replace (ticks s + 2 * S (length due))%nat
             with (S (S (ticks s + 2 * length due)))%nat by lia.
        -- apply elem_of_app. right. destruct rest; [discriminate|].
           inversion Hh; subst. by left.
    + exists [], (l :: tasks). split; [reflexivity|]. split; [|split].
      * by rewrite for_schedule_break.
      * intros i l' Hi. discriminate.
      * intros l' Hh. inversion Hh; subst l'. apply due_now_false in Hdue.
        cbn. by replace (ticks s + 0)%nat with (ticks s) by lia.
Qed.

Lemma index_middle (x : loc) (kept rest : list loc) :
  x ∉ kept → index x (kept ++ x :: rest) = Some (length kept).
Proof.
  induction kept as [|y kept IH]; intros Hnot; cbn.
  - by rewrite decide_True.
  - apply not_elem_of_cons in Hnot as [Hne Hnot].
    rewrite decide_False by done. by rewrite IH.
Qed.

Lemma for_cleanup_spec (rep : loc → bool) (due : list loc) :
  ∀ kept rest s,
    schedule s = kept ++ due ++ rest →
    NoDup (kept ++ due) →
    for_cleanup (List.filter (λ l, negb (rep l)) due) s =
    (Ok tt, set_schedule (kept ++ List.filter rep due ++ rest) s).
Proof.
  induction due as [|d due IH]; intros kept rest s Hs Hnd.
  - cbn in *. rewrite <- Hs. destruct s; reflexivity.
  - cbn [List.filter]. destruct (rep d) eqn:Hrep; cbn [negb].
    + rewrite (IH (kept ++ [d]) rest s).
      * by rewrite <- !app_assoc.
      * by rewrite <- app_assoc.
      * by rewrite <- app_assoc.
    + cbn [for_cleanup]. unfold bind, schedule_pop_index.
      cbn [app] in Hs. rewrite Hs. rewrite index_middle.
      2:{ apply NoDup_app in Hnd as (_ & Hdis & _). intros Hin.
          apply (Hdis d Hin). by left. }
      rewrite delete_middle.
      rewrite (IH kept rest).
      * reflexivity.
      * reflexivity.
      * apply NoDup_app in Hnd as (Hk & Hdis & Hd).
        apply NoDup_app. split; [exact Hk|]. split.
        -- intros x Hx Hx'. apply (Hdis x Hx). by right.
        -- by apply NoDup_cons in Hd as [_ Hd].
Qed.

Lemma sorted_tail_above (s : State) (due rest : list loc) (l : loc) :
  is_sorted s → schedule s = due ++ rest → head rest = Some l →
  ∀ l', l' ∈ rest →
    (Task.next (heap s !!! l) <= Task.next (heap s !!! l'))%Q.
Proof.
  unfold is_sorted. intros Hs Hsplit Hh l' Hl'.
  rewrite Hsplit, map_app in Hs.
  apply Sorted_StronglySorted in Hs; [|apply _].
  apply StronglySorted_app_1_r in Hs.
  destruct rest as [|l0 rest]; [discriminate|].
  inversion Hh; subst l0. cbn in Hs.
  apply StronglySorted_inv in Hs as [_ Hall].
  apply elem_of_cons in Hl' as [->|Hl']; [apply Qle_refl|].
  rewrite List.Forall_forall in Hall. apply Hall.
  apply in_map_iff. exists l'. split; [reflexivity|].
  by apply list_elem_of_In.
Qed.





(** ** The order of [active] *)

Section sorted_by_key.
Context {A : Type} (key : A → Q).

Lemma insert_by_perm (x : A) (l : list A) : insert_by key x l ≡ₚ x :: l.
Proof.
  induction l as [|y l IH]; cbn; [reflexivity|].
  destruct (Qle_bool (key x) (key y)); [reflexivity|].
  rewrite IH. apply Permutation_swap.
Qed.

Lemma sorted_perm (l : list A) : sorted key l ≡ₚ l.
Proof.
  induction l as [|x l IH]; cbn; [reflexivity|].
  rewrite insert_by_perm. by rewrite IH.
Qed.

Lemma insert_by_sorted (x : A) (l : list A) :
  Sorted Qle (map key l) → Sorted Qle (map key (insert_by key x l)).
Proof.
  induction l as [|y l IH]; intros Hs; cbn.
  - repeat constructor.
  - destruct (Qle_bool (key x) (key y)) eqn:Hxy.
    + apply Qle_bool_iff in Hxy. cbn. constructor; [exact Hs|].
      by constructor.
    + assert (Hyx : (key y <= key x)%Q).
      { apply Qlt_le_weak, Qnot_le_lt. intros Hle.
        apply Qle_bool_iff in Hle. congruence. }
      cbn in Hs. apply Sorted_inv in Hs as [Hs Hhd].
      cbn. constructor; [by apply IH|].
      destruct l as [|z l]; cbn.
      * by constructor.
      * destruct (Qle_bool (key x) (key z)); cbn; constructor;
          [exact Hyx|]. by inversion Hhd.
Qed.

Lemma sorted_sorted (l : list A) : Sorted Qle (map key (sorted key l)).
Proof.
  induction l as [|x l IH]; cbn; [constructor|]. by apply insert_by_sorted.
Qed.
End sorted_by_key.

Lemma Sorted_drop_middle (pre post : list Q) (x : Q) :
  Sorted Qle (pre ++ x :: post) → Sorted Qle (pre ++ post).
Proof.
  intros Hs. apply Sorted_StronglySorted in Hs; [|apply _].
  apply StronglySorted_Sorted.
  apply StronglySorted_app in Hs as (Hcross & Hpre & Hpost).
  apply StronglySorted_app. split; [|split].
  - intros x1 x2 H1 H2. apply Hcross; [exact H1|]. by right.
  - exact Hpre.
  - by apply StronglySorted_inv in Hpost as [? _].
Qed.

Lemma list_remove_Some (x : loc) (l r : list loc) :
  list_remove x l = Some r → ∃ pre post, l = pre ++ x :: post ∧ r = pre ++ post.
Proof.
  revert r. induction l as [|y l IH]; intros r Hr; [discriminate|].
  cbn in Hr. destruct (decide (y = x)) as [->|Hne].
  - inversion Hr; subst. by exists [], r.
  - destruct (list_remove x l) as [r'|]; [|discriminate].
    inversion Hr; subst. destruct (IH r' eq_refl) as (pre & post & -> & ->).
    by exists (y :: pre), post.
Qed.

Lemma remove_cases name (s : State) :
  snd (remove name s) = s
  ∨ ∃ pre l post, schedule s = pre ++ l :: post
                  ∧ snd (remove name s) = set_schedule (pre ++ post) s.
Proof.
  rewrite remove_eq. destruct (last _) as [l|]; [|by left].
  destruct (list_remove l (schedule s)) as [r|] eqn:Hr; [|by left].
  destruct (list_remove_Some _ _ _ Hr) as (pre & post & Hs & ->).
  right. by exists pre, l, post.
Qed.

Lemma remove_invariant name (s : State) :
  (is_sorted s → is_sorted (snd (remove name s)))
  ∧ (no_dangling s → no_dangling (snd (remove name s)))
  ∧ updated (snd (remove name s)) = updated s.
Proof.
  destruct (remove_cases name s) as [->|(pre & l & post & Hs & ->)];
    [done|].
  split; [|split; [|reflexivity]].
  - unfold is_sorted. cbn. rewrite Hs, !map_app. cbn [map].
    apply Sorted_drop_middle.
  - unfold no_dangling. cbn. rewrite Hs. intros Hwf l' Hl'. apply Hwf.
    rewrite !elem_of_app in Hl'. rewrite !elem_of_app, elem_of_cons.
    tauto.
Qed.

Lemma add_invariant name sec cb a kw rep q (s : State) :
  (invariant s → invariant (snd (add name sec cb a kw rep q s)))
  ∧ updated (snd (add name sec cb a kw rep q s)) = updated s.
Proof.
  rewrite add_eq. destruct (existsb _ _); [done|]. cbn [snd].
  split; [|reflexivity]. intros [Hwf Hs].
  pose proof (is_fresh (dom (heap s))) as Hfresh.
  set (l := fresh (dom (heap s))) in *. split.
  - unfold no_dangling. cbn. intros l' Hl'. rewrite dom_insert_L.
    rewrite app_assoc in Hl'. apply elem_of_app in Hl' as [Hl'|Hl'].
    + apply elem_of_union. right. by apply Hwf.
    + apply list_elem_of_singleton in Hl' as ->.
      apply elem_of_union. left. by apply elem_of_singleton.
  - unfold is_sorted in *. cbn.
    erewrite map_ext_in; [exact Hs|]. intros l' Hl'. cbn.
    rewrite lookup_total_insert_ne; [reflexivity|].
    intros <-. apply Hfresh, Hwf. apply elem_of_app. left.
    by apply list_elem_of_In.
Qed.

Lemma perform_invariant (a : action) (s : State) :
  (invariant s → invariant (snd (perform a s)))
  ∧ updated (snd (perform a s)) = updated s.
Proof.
  destruct a as [n sec cb ar kw rep q|n| |]; cbn [perform];
    rewrite ?elsewhere_ok; cbn [snd].
  - apply add_invariant.
  - destruct (remove_invariant n s) as (Hs & Hwf & Hu).
    split; [|exact Hu]. intros [? ?]. split; auto.
  - done.
  - done.
Qed.

Lemma concurrently_invariant (acts : list action) (s : State) :
  (invariant s → invariant (snd (concurrently acts s)))
  ∧ updated (snd (concurrently acts s)) = updated s.
Proof.
  revert s. induction acts as [|a acts IH]; intros s; [done|].
  cbn [concurrently]. unfold bind. rewrite perform_ok.
  destruct (perform_invariant a s) as [Hi Hu].
  destruct (IH (snd (perform a s))) as [Hi' Hu'].
  split; [auto|congruence].
Qed.

(** The scan, whatever the callbacks do: it leaves the lists alone, and
    either marks the pass as dirty or leaves the tasks untouched. *)
Lemma for_schedule_any (tasks : list loc) (s : State) :
  let s' := snd (for_schedule tasks s) in
  schedule s' = schedule s
  ∧ addq s' = addq s
  ∧ schedule_lock s' = schedule_lock s
  ∧ (updated s' = true
     ∨ (updated s' = updated s ∧ heap s' = heap s
        ∧ cleanup s' = cleanup s))
  ∧ ((∀ l, l ∈ tasks → l ∈ dom (heap s)) → dom (heap s') = dom (heap s)).
Proof.
  revert s. induction tasks as [|l tasks IH]; intros s; cbn zeta.
  - cbn. split_and!; auto.
  - destruct (due_now l s) eqn:Hdue.
    + destruct (failure (heap s !!! l)) as [e|] eqn:Hf.
      * rewrite (for_schedule_raise l tasks s e) by assumption. cbn.
        split_and!; auto.
      * rewrite for_schedule_fire by assumption.
        destruct (IH (fire_one l s)) as (Hs & Ha & Hl & Hu & Hd).
        rewrite Hs, Ha, Hl. split_and!; try reflexivity.
        -- left. destruct Hu as [Hu|(Hu & _)]; [exact Hu|].
           rewrite Hu. reflexivity.
        -- intros Hin.
           assert (Hone : dom (heap (fire_one l s)) = dom (heap s)).
           { apply (fire_all_dom [l] s). intros l' Hl'.
             apply list_elem_of_singleton in Hl' as ->. apply Hin. by left. }
           rewrite Hd, Hone; [reflexivity|].
           intros l' Hl'. rewrite Hone. apply Hin. by right.
    + rewrite for_schedule_break by assumption. cbn.
      split_and!; auto.
Qed.

Lemma for_cleanup_any (marked : list loc) (s : State) :
  let s' := snd (for_cleanup marked s) in
  heap s' = heap s
  ∧ addq s' = addq s
  ∧ updated s' = updated s
  ∧ schedule_lock s' = schedule_lock s
  ∧ (∀ l, l ∈ schedule s' → l ∈ schedule s).
Proof.
  revert s. induction marked as [|m marked IH]; intros s; cbn zeta.
  - cbn. split_and!; auto.
  - cbn [for_cleanup]. unfold bind, schedule_pop_index.
    destruct (index m (schedule s)) as [i|]; [|cbn; split_and!; auto].
    destruct (IH (set_schedule (delete i (schedule s)) s))
      as (Hh & Ha & Hu & Hl & Hsub).
    rewrite Hh, Ha, Hu, Hl. split_and!; try reflexivity.
    intros l Hin. apply Hsub in Hin. cbn in Hin.
    by eapply list_elem_of_delete_inv.
Qed.

Lemma fire_due_eq (s : State) :
  fire_due s =
  match for_schedule (schedule s)
          (set_lock (S (schedule_lock s)) (set_cleanup [] s)) with
  | (Ok _, s2) => for_cleanup (cleanup s2) s2
  | (Raise e, s2) => (Raise e, s2)
  end.
Proof. reflexivity. Qed.

Lemma fire_due_any (s : State) :
  let s' := snd (fire_due s) in
  addq s' = addq s
  ∧ schedule_lock s' = S (schedule_lock s)
  ∧ (updated s' = true
     ∨ (updated s' = updated s ∧ heap s' = heap s
        ∧ schedule s' = schedule s))
  ∧ (∀ l, l ∈ schedule s' → l ∈ schedule s)
  ∧ ((∀ l, l ∈ schedule s → l ∈ dom (heap s)) →
     dom (heap s') = dom (heap s)).
Proof.
  cbn zeta. rewrite fire_due_eq.
  set (s1 := set_lock _ _).
  pose proof (for_schedule_any (schedule s) s1) as Hscan. cbn zeta in Hscan.
  destruct (for_schedule (schedule s) s1) as [r s2].
  cbn [snd] in Hscan. destruct Hscan as (Hs & Ha & Hl & Hu & Hd).
  destruct r as [[]|e].
  - pose proof (for_cleanup_any (cleanup s2) s2) as Hc. cbn zeta in Hc.
    destruct Hc as (Hh' & Ha' & Hu' & Hl' & Hsub).
    rewrite Ha', Hl', Hu', Hh', Ha, Hl. split_and!; try reflexivity.
    + destruct Hu as [Hu|(Hu & Hh & Hc)]; [by left|right].
      split_and!; [exact Hu|exact Hh|].
      rewrite Hc. cbn. exact Hs.
    + intros l Hin. apply Hsub in Hin. by rewrite Hs in Hin.
    + exact Hd.
  - cbn [snd]. rewrite Ha, Hl, Hs. split_and!; try reflexivity.
    + destruct Hu as [Hu|(Hu & Hh & _)]; [by left|by right].
    + auto.
    + exact Hd.
Qed.

(** ** One pass of the loop *)

Lemma compute_wait_eq (s : State) :
  compute_wait s = (Ok (wait_of s), after_wait s).
Proof.
  unfold compute_wait, wait_of, after_wait. munfold.
  destruct (schedule s); reflexivity.
Qed.

Lemma pop_pending_eq (wait : Q) (s : State) :
  pop_pending wait s =
  match addq s with
  | [] => (Raise QueueEmpty, set_trace (trace s ++ [get_event wait]) s)
  | task :: rest =>
      (Ok task, set_addq rest (set_trace (trace s ++ [get_event wait]) s))
  end.
Proof.
  unfold pop_pending, get_event, addq_get. munfold.
  destruct (Qle_bool wait 0); cbn; destruct (addq s); reflexivity.
Qed.

Lemma resort_eq (s : State) :
  resort s =
  let s1 := if updated s then resorted s else s in
  match schedule_lock s with
  | O => (Raise RuntimeError, s1)
  | S n => (Ok tt, set_lock n s1)
  end.
Proof.
  unfold resort, resorted. munfold. cbn.
  destruct (updated s); cbn; destruct (schedule_lock s); reflexivity.
Qed.

Lemma merge_eq (newtask : loc) (s : State) :
  merge newtask s =
  (Ok tt, set_schedule (schedule s ++ [newtask])
            (set_lock (S (schedule_lock s)) (set_updated true s))).
Proof. reflexivity. Qed.

Lemma iteration_eq (others : list action) (s : State) :
  iteration others s =
  let s1 := after_wait (set_updated false s) in
  let s2 := snd (concurrently others s1) in
  let s3 := set_trace
              (trace s2 ++ [get_event (wait_of (set_updated false s))]) s2 in
  try_finally
    (fun _ => match addq s2 with
              | [] => fire_due s3
              | newtask :: rest => merge newtask (set_addq rest s3)
              end)
    resort s.
Proof.
  unfold iteration. unfold bind at 1. unfold modify at 1.
  unfold bind at 1. rewrite compute_wait_eq. cbn zeta.
  unfold try_finally, try_except_else. unfold bind at 1.
  rewrite concurrently_ok. rewrite pop_pending_eq.
  destruct (addq _); reflexivity.
Qed.

Lemma is_sorted_resorted (s : State) : is_sorted (resorted s).
Proof. unfold is_sorted, resorted. cbn. apply sorted_sorted. Qed.

Lemma elem_of_resorted (s : State) (l : loc) :
  l ∈ schedule (resorted s) ↔ l ∈ schedule s.
Proof. unfold resorted. cbn. by rewrite sorted_perm. Qed.

Lemma resort_invariant (s : State) :
  let s' := snd (resort s) in
  ((updated s = true ∨ is_sorted s) → is_sorted s')
  ∧ (no_dangling s → no_dangling s')
  ∧ heap s' = heap s ∧ addq s' = addq s ∧ trace s' = trace s
  ∧ run s' = run s
  ∧ (∀ l, l ∈ schedule s' ↔ l ∈ schedule s).
Proof.
  cbn zeta. rewrite resort_eq. cbn zeta.
  assert (Hgoal : ∀ s1, s1 = (if updated s then resorted s else s) →
    ((updated s = true ∨ is_sorted s) → is_sorted s1)
    ∧ (no_dangling s → no_dangling s1)
    ∧ heap s1 = heap s ∧ addq s1 = addq s ∧ trace s1 = trace s
    ∧ run s1 = run s
    ∧ (∀ l, l ∈ schedule s1 ↔ l ∈ schedule s)).
  { intros s1 ->. destruct (updated s) eqn:Hu.
    - split_and!; try reflexivity.
      + intros _. apply is_sorted_resorted.
      + unfold no_dangling. intros Hwf l Hl. apply Hwf.
        rewrite elem_of_app in *. rewrite elem_of_resorted in Hl. exact Hl.
      + apply elem_of_resorted.
    - split_and!; try reflexivity; try done.
      intros [?|?]; [discriminate|done]. }
  destruct (schedule_lock s); cbn [snd]; [by apply Hgoal|].
  destruct (Hgoal _ eq_refl) as (H1 & H2 & H3 & H4 & H5 & H6 & H7).
  split_and!; assumption.
Qed.

Lemma fire_then_resort (s : State) :
  (is_sorted s → is_sorted (snd (try_finally fire_due resort s)))
  ∧ (no_dangling s → no_dangling (snd (try_finally fire_due resort s))).
Proof.
  unfold try_finally.
  pose proof (fire_due_any s) as Hany. cbn zeta in Hany.
  destruct (fire_due s) as [r s4]. cbn [snd] in Hany.
  destruct Hany as (Ha & _ & Hu & Hsub & Hd).
  pose proof (resort_invariant s4) as Hre. cbn zeta in Hre.
  assert (Hres : (is_sorted s → is_sorted (snd (resort s4)))
                 ∧ (no_dangling s → no_dangling (snd (resort s4)))).
  { destruct Hre as (Hsort & Hdang & _).
    split.
    - intros Hs. apply Hsort.
      destruct Hu as [Hu|(_ & Hh & Hsc)]; [by left|right].
      unfold is_sorted in *. by rewrite Hh, Hsc.
    - intros Hwf. apply Hdang. intros l Hl. rewrite Hd.
      + apply Hwf. rewrite elem_of_app in *. rewrite Ha in Hl.
        destruct Hl as [Hl|Hl]; [left; by apply Hsub|by right].
      + intros l' Hl'. apply Hwf. apply elem_of_app. by left. }
  destruct (resort s4) as [[[]|e] s5]; exact Hres.
Qed.

Lemma merge_then_resort (newtask : loc) (s : State) :
  is_sorted (snd (try_finally (merge newtask) resort s))
  ∧ (no_dangling s → newtask ∈ dom (heap s) →
     no_dangling (snd (try_finally (merge newtask) resort s))).
Proof.
  unfold try_finally. rewrite merge_eq.
  set (s4 := set_schedule _ _).
  pose proof (resort_invariant s4) as Hre. cbn zeta in Hre.
  destruct Hre as (Hsort & Hdang & _).
  assert (Hres : is_sorted (snd (resort s4))
                 ∧ (no_dangling s → newtask ∈ dom (heap s) →
                    no_dangling (snd (resort s4)))).
  { split; [apply Hsort; by left|]. intros Hwf Hnew. apply Hdang.
    intros l Hl. subst s4. cbn in Hl |- *.
    rewrite !elem_of_app in Hl. destruct Hl as [[Hl|Hl]|Hl].
    - apply Hwf. apply elem_of_app. by left.
    - by apply list_elem_of_singleton in Hl as ->.
    - apply Hwf. apply elem_of_app. by right. }
  destruct (resort s4) as [[[]|e] s5]; exact Hres.
Qed.

Lemma iteration_invariant (others : list action) (s : State) :
  invariant s → invariant (snd (iteration others s)).
Proof.
  intros Hinv. rewrite iteration_eq. cbn zeta.
  set (s0 := set_updated false s).
  assert (H1 : invariant (after_wait s0) ∧ updated (after_wait s0) = false).
  { unfold after_wait. destruct (schedule s0) eqn:E; split; try reflexivity;
      exact Hinv. }
  destruct H1 as [Hinv1 Hu1].
  destruct (concurrently_invariant others (after_wait s0)) as [Hinv2 Hu2].
  specialize (Hinv2 Hinv1). rewrite Hu1 in Hu2.
  set (s2 := snd (concurrently others (after_wait s0))) in *.
  set (s3 := set_trace _ s2).
  assert (Hinv3 : invariant s3) by exact Hinv2.
  destruct (addq s2) as [|newtask rest] eqn:Hq.
  - destruct (fire_then_resort s3) as [Hs Hd].
    destruct Hinv3 as [Hwf3 Hs3]. split; auto.
  - destruct (merge_then_resort newtask (set_addq rest s3)) as [Hs Hd].
    split; [|exact Hs]. apply Hd.
    + destruct Hinv3 as [Hwf _]. intros l Hl. apply Hwf.
      cbn in Hl |- *. rewrite Hq. rewrite elem_of_app in *.
      destruct Hl as [Hl|Hl]; [by left|right; by right].
    + destruct Hinv3 as [Hwf _]. apply Hwf. cbn. rewrite Hq.
      apply elem_of_app. right. by left.
Qed.

Lemma while_loop_invariant (env : Env) (fuel i : nat) (s : State) :
  invariant s → invariant (snd (while_loop env fuel i s)).
Proof.
  revert i s. induction fuel as [|fuel IH]; intros i s Hinv;
    rewrite while_loop_eq; cbn zeta;
    destruct (concurrently_invariant (before_check env i) s) as [Hc _];
    specialize (Hc Hinv);
    destruct (run _ && negb (stop _)); try exact Hc.
  unfold bind.
  pose proof (iteration_invariant (during_get env i) _ Hc) as Hit.
  destruct (iteration _ _) as [[[]|e] s']; cbn [snd] in Hit |- *.
  - by apply IH.
  - exact Hit.
Qed.

Lemma process_invariant (env : Env) (fuel : nat) (s : State) :
  invariant s → invariant (snd (_process env fuel s)).
Proof.
  intros Hinv. unfold _process. unfold bind at 1. unfold modify at 1.
  unfold guarded, try_except, try_except_else. unfold bind at 1.
  pose proof (while_loop_invariant env fuel 0 (set_run true s) Hinv) as Hw.
  destruct (while_loop env fuel 0 (set_run true s)) as [[[]|e] s'];
    cbn [snd] in Hw; try exact Hw.
  destruct (is_interrupt e); exact Hw.
Qed.

Lemma init_invariant (stopevent : bool) (clk : nat → Q) :
  invariant (Scheduler__init__ stopevent clk).
Proof.
  split.
  - intros l Hl. cbn in Hl. by apply elem_of_nil in Hl.
  - constructor.
Qed.

(** C3. [active] is in ascending order of [next] at the start of every
    pass of the loop.  Each mutation keeps it so: [remove] deletes one
    element of a sorted list; the merge of a task read from [pending]
    appends it and re-sorts; the firing of due tasks resets their [next]
    and re-sorts whenever something fired.  Hence a whole pass keeps the
    order, and so does any run of [_process] under any interleaving of
    calls by other threads: whatever the number of passes run, from a
    fresh scheduler, the state reached is sorted. *)
Theorem active_stays_sorted :
  (∀ name s, is_sorted s → is_sorted (snd (remove name s)))
  ∧ (∀ newtask s, is_sorted (snd (try_finally (merge newtask) resort s)))
  ∧ (∀ s, is_sorted s → is_sorted (snd (try_finally fire_due resort s)))
  ∧ (∀ others s, invariant s → invariant (snd (iteration others s)))
  ∧ (∀ env fuel s, invariant s → is_sorted (snd (_process env fuel s)))
  ∧ (∀ env fuel stopevent clk,
       is_sorted (snd (_process env fuel (Scheduler__init__ stopevent clk)))).
Proof.
  split_and!.
  - intros name s. apply remove_invariant.
  - intros newtask s. apply merge_then_resort.
  - intros s. apply fire_then_resort.
  - intros others s. apply iteration_invariant.
  - intros env fuel s Hinv. by apply process_invariant.
  - intros env fuel stopevent clk.
    apply process_invariant, init_invariant.
Qed.

Lemma active_stays_sorted_witness :
  is_sorted three_merged
  ∧ is_sorted (snd (remove "ping" three_merged))
  ∧ is_sorted (snd (_process quiet 4 three_merged)).
Proof.
  destruct active_stays_sorted as (Hrm & _ & _ & _ & Hrun & Hinit).
  assert (Hs : is_sorted three_merged).
  { unfold three_merged. cbn zeta. apply Hrun. split.
    - intros l Hl. vm_compute in Hl.
      repeat (apply elem_of_cons in Hl as [->|Hl]);
        try (by apply elem_of_nil in Hl);
        apply (bool_decide_unpack _); vm_compute; exact I.
    - constructor. }
  split; [exact Hs|]. split.
  - apply Hrm. exact Hs.
  - apply Hrun. split; [|exact Hs].
    intros l Hl. vm_compute in Hl.
    repeat (apply elem_of_cons in Hl as [->|Hl]);
      try (by apply elem_of_nil in Hl);
      apply (bool_decide_unpack _); vm_compute; exact I.
Defined.

(** ** Names in [active] *)

(** C6. Name uniqueness within [active] is what [add] guards with
    [UniqueKeyConstraint], but the guard looks at [active] only and the
    merge step appends without any check: two [add("x", ...)] calls made
    before the loop merges the first are both accepted, and after two
    passes [active] holds two tasks named "x". *)
Theorem merge_admits_duplicate_names :
  let s0 := Scheduler__init__ false ticking in
  let r1 := add "x" 1 noop None None false None s0 in
  let r2 := add "x" 1 noop None None false None (snd r1) in
  let s3 := snd (_process quiet 2 (snd r2)) in
  fst r1 = Ok tt
  ∧ fst r2 = Ok tt
  ∧ addq (snd r2) = [0; 1]%nat
  ∧ schedule s3 = [0; 1]%nat
  ∧ addq s3 = []
  ∧ map (λ l, Task.name (heap s3 !!! l)) (schedule s3) = ["x"; "x"]%string
  ∧ ¬ NoDup (map (λ l, Task.name (heap s3 !!! l)) (schedule s3)).
Proof.
  vm_compute. split_and!; try reflexivity.
  intros Hnd. apply NoDup_cons in Hnd as [Hnot _]. apply Hnot. by left.
Qed.

(** ** A callback that raises *)

Lemma for_schedule_fails (pre : list loc) (l : loc) (post : list loc)
    (e : exn) (s : State) :
  NoDup (pre ++ [l]) →
  (∀ k l', pre !! k = Some l' →
     (Task.next (heap s !!! l') <= clock s (ticks s + 2 * k)%nat)%Q
     ∧ failure (heap s !!! l') = None) →
  (Task.next (heap s !!! l)
   <= clock s (ticks s + 2 * length pre)%nat)%Q →
  failure (heap s !!! l) = Some e →
  for_schedule (pre ++ l :: post) s =
  (Raise e,
   set_trace (trace (fire_all pre s) ++ [firing (heap s !!! l)])
     (set_updated true
        (set_ticks (S (ticks (fire_all pre s))) (fire_all pre s)))).
Proof.
  revert s. induction pre as [|p pre IH]; intros s Hnd Hpre Hl Hfail.
  - cbn [app fire_all foldl]. apply for_schedule_raise; [|exact Hfail].
    apply due_now_true. cbn in Hl.
    by replace (ticks s + 0)%nat with (ticks s) in Hl by lia.
  - cbn [app] in Hnd |- *. apply NoDup_cons in Hnd as [Hnot Hnd].
    destruct (Hpre 0%nat p eq_refl) as [Hp0 Hpok].
    replace (ticks s + 2 * 0)%nat with (ticks s) in Hp0 by lia.
    rewrite for_schedule_fire; [|by apply due_now_true|exact Hpok].
    assert (Hsame : ∀ l', l' ∈ pre ++ [l] →
              heap (fire_one p s) !!! l' = heap s !!! l').
    { intros l' Hl'. cbn. rewrite retimed_lookup.
      destruct (decide (p = l')) as [->|]; [done|reflexivity]. }
    rewrite (IH (fire_one p s) Hnd).
    + rewrite fire_all_cons. rewrite Hsame; [reflexivity|].
      apply elem_of_app. right. by left.
    + intros k l' Hk. destruct (Hpre (S k) l' Hk) as [Hd Hok].
      rewrite Hsame.
      * split; [|exact Hok].
        cbn [fire_one clock ticks set_cleanup set_heap set_ticks set_trace
             set_updated].
        by replace (S (S (ticks s)) + 2 * k)%nat
          with (ticks s + 2 * S k)%nat by lia.
      * apply elem_of_app. left. by eapply list_elem_of_lookup_2.
    + rewrite Hsame by (apply elem_of_app; right; by left).
      cbn [fire_one clock ticks set_cleanup set_heap set_ticks set_trace
           set_updated].
      cbn [length] in Hl.
      by replace (S (S (ticks s)) + 2 * length pre)%nat
        with (ticks s + 2 * S (length pre))%nat by lia.
    + rewrite Hsame by (apply elem_of_app; right; by left). exact Hfail.
Qed.

Lemma iteration_fails (s : State) (pre : list loc) (l : loc)
    (post : list loc) (e : exn) :
  addq s = [] →
  schedule s = pre ++ l :: post →
  NoDup (schedule s) →
  (∀ k l', pre !! k = Some l' →
     (Task.next (heap s !!! l') <= clock s (ticks s + 1 + 2 * k)%nat)%Q
     ∧ failure (heap s !!! l') = None) →
  (Task.next (heap s !!! l)
   <= clock s (ticks s + 1 + 2 * length pre)%nat)%Q →
  failure (heap s !!! l) = Some e →
  ∃ s',
    iteration [] s = (Raise e, s')
    ∧ run s' = run s
    ∧ trace s' = trace s ++ [get_event (wait_of s)]
                 ++ map (λ l', firing (heap s !!! l')) pre
                 ++ [firing (heap s !!! l)]
    ∧ (∀ l', l' ∈ l :: post → heap s' !!! l' = heap s !!! l')
    ∧ (∀ l', l' ∈ schedule s' ↔ l' ∈ schedule s).
Proof.
  intros Hq Hsplit Hnd Hpre Hl Hfail.
  rewrite iteration_eq. cbn zeta. cbn [concurrently ret snd].
  assert (Haw : after_wait (set_updated false s)
                = set_ticks (S (ticks s)) (set_updated false s)).
  { unfold after_wait. cbn [schedule set_updated]. rewrite Hsplit.
    by destruct pre. }
  rewrite Haw. cbn [addq set_ticks set_updated]. rewrite Hq.
  set (s3 := set_trace _ _).
  unfold try_finally. rewrite fire_due_eq.
  set (sB := set_lock _ _).
  assert (Hscan : for_schedule (schedule s3) sB =
    (Raise e,
     set_trace (trace (fire_all pre sB) ++ [firing (heap sB !!! l)])
       (set_updated true
          (set_ticks (S (ticks (fire_all pre sB))) (fire_all pre sB))))).
  { change (schedule s3) with (schedule s). rewrite Hsplit.
    apply for_schedule_fails.
    - rewrite Hsplit in Hnd. rewrite (assoc_L (++) pre [l] post : pre ++ l :: post = (pre ++ [l]) ++ post) in Hnd.
      by apply NoDup_app in Hnd as (? & _).
    - intros k l' Hk. destruct (Hpre k l' Hk) as [Hd Hok].
      split; [|exact Hok].
      change (heap sB) with (heap s). change (clock sB) with (clock s).
      change (ticks sB) with (S (ticks s)).
      by replace (S (ticks s) + 2 * k)%nat
        with (ticks s + 1 + 2 * k)%nat by lia.
    - change (heap sB) with (heap s). change (clock sB) with (clock s).
      change (ticks sB) with (S (ticks s)).
      by replace (S (ticks s) + 2 * length pre)%nat
        with (ticks s + 1 + 2 * length pre)%nat by lia.
    - exact Hfail. }
  rewrite Hscan. set (sC := set_trace _ _).
  destruct (fire_all_frame pre sB) as (Hfs & Hfa & Hfr & Hfst & Hfl & Hfc & Hft).
  rewrite resort_eq. cbn zeta.
  change (updated sC) with true. cbn iota.
  change (schedule_lock sC) with (schedule_lock (fire_all pre sB)).
  rewrite Hfl. change (schedule_lock sB) with (S (schedule_lock s)).
  eexists. split; [reflexivity|].
  split_and!.
  - cbn. exact Hfr.
  - cbn. rewrite fire_all_trace. cbn. rewrite <- !app_assoc. reflexivity.
  - intros l' Hl'. cbn. rewrite fire_all_untouched; [reflexivity|].
    intros Hin. rewrite Hsplit in Hnd.
    apply NoDup_app in Hnd as (_ & Hdis & _). by apply (Hdis l').
  - intros l'.
    change (schedule (set_lock (schedule_lock s) (resorted sC)))
      with (schedule (resorted sC)).
    rewrite elem_of_resorted. cbn. by rewrite Hfs.
Qed.

Lemma set_run_same (s : State) : run s = true → set_run true s = s.
Proof. destruct s; cbn; by intros ->. Qed.

(** C7. A callback that raises during the scan of the due tasks is not
    caught by the loop: the tasks before it have fired, the tasks after
    it are neither fired nor reset in that pass, no further pass is
    made, and the exception leaves [_process], unless it is
    [KeyboardInterrupt] or [SystemExit], the only two handled, for which
    [_process] sets [run] to false and returns. *)
Theorem callback_exception_ends_loop (env : Env) (fuel i : nat) (s : State)
    (pre : list loc) (l : loc) (post : list loc) (e : exn) :
  run s = true → stop s = false →
  before_check env i = [] → during_get env i = [] → addq s = [] →
  schedule s = pre ++ l :: post →
  NoDup (schedule s) →
  (∀ k l', pre !! k = Some l' →
     (Task.next (heap s !!! l') <= clock s (ticks s + 1 + 2 * k)%nat)%Q
     ∧ failure (heap s !!! l') = None) →
  (Task.next (heap s !!! l)
   <= clock s (ticks s + 1 + 2 * length pre)%nat)%Q →
  failure (heap s !!! l) = Some e →
  let t := heap s !!! l in
  let result := if is_interrupt e then Ok Finished else Raise e in
  ∃ s',
    guarded (while_loop env (S fuel) i) s = (result, s')
    ∧ (i = 0%nat → _process env (S fuel) s = (result, s'))
    ∧ run s' = negb (is_interrupt e)
    ∧ trace s' = trace s ++ [get_event (wait_of s)]
                 ++ map (λ l', firing (heap s !!! l')) pre
                 ++ [Called (Task.callback t) (Task.args t) (Task.kwargs t)]
                 ++ (if is_interrupt e
                     then [LogDebug "Quitting Scheduler thread"] else [])
    ∧ (∀ l', l' ∈ l :: post →
         heap s' !!! l' = heap s !!! l' ∧ l' ∈ schedule s').
Proof.
  intros Hrun Hstop Hbefore Hduring Hq Hsplit Hnd Hpre Hl Hfail t result.
  destruct (iteration_fails s pre l post e Hq Hsplit Hnd Hpre Hl Hfail)
    as (s1 & Hit & Hr1 & Htr1 & Hheap1 & Hsch1).
  assert (Hfiring : firing t = Called (Task.callback t) (Task.args t)
                                      (Task.kwargs t)).
  { unfold failure in Hfail. unfold firing. fold t in Hfail.
    by destruct (Task.qpointer t). }
  fold t in Htr1. rewrite Hfiring in Htr1.
  assert (Hloop : while_loop env (S fuel) i s = (Raise e, s1)).
  { rewrite while_loop_eq, Hbefore. cbn [concurrently ret snd].
    cbn zeta. rewrite Hrun, Hstop. cbn [negb andb].
    rewrite Hduring. unfold bind. by rewrite Hit. }
  assert (Hguard : ∃ s',
    guarded (while_loop env (S fuel) i) s = (result, s')
    ∧ run s' = negb (is_interrupt e)
    ∧ trace s' = trace s1 ++ (if is_interrupt e
                     then [LogDebug "Quitting Scheduler thread"] else [])
    ∧ heap s' = heap s1 ∧ schedule s' = schedule s1).
  { unfold guarded, try_except, try_except_else. unfold bind at 1.
    rewrite Hloop. subst result. destruct (is_interrupt e).
    - eexists. split; [reflexivity|]. by cbn.
    - eexists. split; [reflexivity|]. cbn. rewrite app_nil_r.
      by rewrite Hr1, Hrun. }
  destruct Hguard as (s' & Hg & Hr' & Htr' & Hh' & Hs').
  exists s'. split_and!.
  - exact Hg.
  - intros ->. unfold _process. unfold bind at 1. unfold modify at 1.
    by rewrite set_run_same.
  - exact Hr'.
  - rewrite Htr', Htr1. by rewrite <- !app_assoc.
  - intros l' Hl'. rewrite Hh', Hs'. split; [by apply Hheap1|].
    apply Hsch1. rewrite Hsplit. apply elem_of_app. by right.
Qed.

Lemma callback_exception_ends_loop_witness :
  ∃ s', _process quiet 4 (one_raises (OtherError 7))
        = (Raise (OtherError 7), s')
        ∧ run s' = true
        ∧ heap s' !!! 2%nat = heap (one_raises (OtherError 7)) !!! 2%nat.
Proof.
  set (s := one_raises (OtherError 7)).
  assert (Hrun : run s = true) by (vm_compute; reflexivity).
  assert (Hstop : stop s = false) by (vm_compute; reflexivity).
  assert (Hq : addq s = []) by (vm_compute; reflexivity).
  assert (Hsplit : schedule s = [0%nat] ++ 1%nat :: [2%nat])
    by (vm_compute; reflexivity).
  assert (Hnd : NoDup (schedule s)).
  { rewrite Hsplit. apply (bool_decide_unpack (NoDup [0; 1; 2]%nat)).
    vm_compute. exact I. }
  assert (Hpre : ∀ k l', [0%nat] !! k = Some l' →
     (Task.next (heap s !!! l') <= clock s (ticks s + 1 + 2 * k)%nat)%Q
     ∧ failure (heap s !!! l') = None).
  { intros [|k] l' Hk; [|destruct k; discriminate].
    inversion Hk; subst l'. split.
    - apply Qle_bool_iff. vm_compute. reflexivity.
    - vm_compute. reflexivity. }
  assert (Hl : (Task.next (heap s !!! 1%nat)
                <= clock s (ticks s + 1 + 2 * length [0%nat])%nat)%Q).
  { apply Qle_bool_iff. vm_compute. reflexivity. }
  assert (Hfail : failure (heap s !!! 1%nat) = Some (OtherError 7))
    by (vm_compute; reflexivity).
  destruct (callback_exception_ends_loop quiet 3 0 s [0%nat] 1%nat [2%nat]
              (OtherError 7) Hrun Hstop eq_refl eq_refl Hq Hsplit Hnd
              Hpre Hl Hfail)
    as (s' & _ & Hproc & Hr & _ & Hpost).
  exists s'. split; [exact (Hproc eq_refl)|]. split; [exact Hr|].
  apply Hpost. right. by left.
Defined.

(** * Further properties of the code *)

(** ** What the operations leave alone *)

Lemma add_frame name sec cb a kw rep q (s : State) :
  let s' := snd (add name sec cb a kw rep q s) in
  run s' = run s ∧ stop s' = stop s
  ∧ schedule_lock s' = schedule_lock s
  ∧ trace s' = trace s
  ∧ schedule s' = schedule s
  ∧ (∀ l, l ∈ dom (heap s) → heap s' !! l = heap s !! l)
  ∧ (∀ l, l ∈ addq s' → l ∈ addq s ∨ l ∉ dom (heap s)).
Proof.
  cbn zeta. rewrite add_eq. destruct (existsb _ _); cbn [snd].
  - split_and!; auto.
  - cbn. split_and!; try reflexivity.
    + intros l Hl. rewrite lookup_insert_ne; [reflexivity|].
      intros <-. by apply (is_fresh (dom (heap s))).
    + intros l [Hl|Hl]%elem_of_app; [by left|right].
      apply list_elem_of_singleton in Hl as ->. apply is_fresh.
Qed.

Lemma remove_frame name (s : State) :
  let s' := snd (remove name s) in
  run s' = run s ∧ stop s' = stop s
  ∧ schedule_lock s' = schedule_lock s
  ∧ trace s' = trace s
  ∧ heap s' = heap s ∧ addq s' = addq s
  ∧ (∀ l, l ∈ schedule s' → l ∈ schedule s).
Proof.
  cbn zeta.
  destruct (remove_cases name s) as [->|(pre & l & post & Hs & ->)].
  - split_and!; auto.
  - cbn. split_and!; try reflexivity. intros l'. rewrite Hs.
    rewrite !elem_of_app, elem_of_cons. tauto.
Qed.

Lemma perform_frame (a : action) (s : State) :
  let s' := snd (perform a s) in
  run s' = run s && negb (is_quit a)
  ∧ stop s' = stop s || is_set_stop a
  ∧ schedule_lock s' = schedule_lock s
  ∧ trace s' = trace s
  ∧ (∀ l, l ∈ dom (heap s) → heap s' !! l = heap s !! l)
  ∧ (∀ l, l ∈ schedule s' ++ addq s' →
          l ∈ schedule s ++ addq s ∨ l ∉ dom (heap s)).
Proof.
  cbn zeta.
  destruct a as [n sec cb ar kw rep q|n| |]; cbn [perform];
    rewrite ?elsewhere_ok; cbn [snd is_quit is_set_stop negb].
  - destruct (add_frame n sec cb ar kw rep q s)
      as (-> & -> & -> & -> & Hsch & Hh & Hq).
    rewrite andb_true_r, orb_false_r. split_and!; try reflexivity.
    + exact Hh.
    + intros l. rewrite Hsch, !elem_of_app. intros [Hl|Hl]; [by left; left|].
      destruct (Hq l Hl); [left; by right|by right].
  - destruct (remove_frame n s) as (-> & -> & -> & -> & -> & -> & Hsub).
    rewrite andb_true_r, orb_false_r. split_and!; try reflexivity.
    intros l. rewrite !elem_of_app. intros [Hl|Hl]; left; [left|right]; auto.
  - cbn. rewrite andb_false_r, orb_false_r. split_and!; auto.
  - cbn. rewrite andb_true_r, orb_true_r. split_and!; auto.
Qed.

Lemma concurrently_frame (acts : list action) (s : State) :
  let s' := snd (concurrently acts s) in
  run s' = run s && forallb (λ a, negb (is_quit a)) acts
  ∧ stop s' = stop s || existsb is_set_stop acts
  ∧ schedule_lock s' = schedule_lock s
  ∧ trace s' = trace s
  ∧ (∀ l, l ∈ dom (heap s) → heap s' !! l = heap s !! l)
  ∧ (∀ l, l ∈ schedule s' ++ addq s' →
          l ∈ schedule s ++ addq s ∨ l ∉ dom (heap s)).
Proof.
  revert s. induction acts as [|a acts IH]; intros s; cbn zeta.
  - cbn. rewrite andb_true_r, orb_false_r. split_and!; auto.
  - cbn [concurrently]. unfold bind. rewrite perform_ok.
    destruct (perform_frame a s) as (Hr & Hst & Hl & Ht & Hh & Hin).
    destruct (IH (snd (perform a s))) as (Hr' & Hst' & Hl' & Ht' & Hh' & Hin').
    cbn [forallb existsb].
    rewrite Hr', Hst', Hl', Ht', Hr, Hst, Hl, Ht.
    rewrite andb_assoc, orb_assoc. split_and!; try reflexivity.
    + intros l Hl0. rewrite Hh', Hh; [reflexivity|exact Hl0|].
      apply elem_of_dom. rewrite Hh by exact Hl0. by apply elem_of_dom.
    + intros l Hl0. destruct (Hin' l Hl0) as [Hl1|Hl1].
      * by apply Hin.
      * right. intros Hd. apply Hl1. apply elem_of_dom.
        rewrite Hh by exact Hd. by apply elem_of_dom.
Qed.

Lemma for_schedule_frame (tasks : list loc) (s : State) :
  let s' := snd (for_schedule tasks s) in
  run s' = run s ∧ stop s' = stop s
  ∧ (∀ l, l ∉ tasks → heap s' !! l = heap s !! l).
Proof.
  revert s. induction tasks as [|l tasks IH]; intros s; cbn zeta.
  - cbn. split_and!; auto.
  - destruct (due_now l s) eqn:Hdue.
    + destruct (failure (heap s !!! l)) as [e|] eqn:Hf.
      * rewrite (for_schedule_raise l tasks s e) by assumption. cbn.
        split_and!; auto.
      * rewrite for_schedule_fire by assumption.
        destruct (IH (fire_one l s)) as (-> & -> & Hh).
        split_and!; try reflexivity.
        intros l' [Hne Hnot]%not_elem_of_cons. rewrite Hh by exact Hnot.
        cbn. unfold retimed. by rewrite lookup_insert_ne.
    + rewrite for_schedule_break by assumption. cbn. split_and!; auto.
Qed.

Lemma for_cleanup_frame (marked : list loc) (s : State) :
  let s' := snd (for_cleanup marked s) in
  run s' = run s ∧ stop s' = stop s ∧ trace s' = trace s.
Proof.
  revert s. induction marked as [|m marked IH]; intros s; cbn zeta.
  - cbn. split_and!; auto.
  - cbn [for_cleanup]. unfold bind, schedule_pop_index.
    destruct (index m (schedule s)) as [i|]; [|cbn; split_and!; auto].
    destruct (IH (set_schedule (delete i (schedule s)) s)) as (-> & -> & ->).
    split_and!; reflexivity.
Qed.

Lemma fire_due_frame (s : State) :
  let s' := snd (fire_due s) in
  run s' = run s ∧ stop s' = stop s
  ∧ (∀ l, l ∉ schedule s → heap s' !! l = heap s !! l).
Proof.
  cbn zeta. rewrite fire_due_eq. set (s1 := set_lock _ _).
  pose proof (for_schedule_frame (schedule s) s1) as Hscan.
  cbn zeta in Hscan.
  destruct (for_schedule (schedule s) s1) as [r s2]. cbn [snd] in Hscan.
  destruct Hscan as (Hr & Hst & Hh).
  destruct r as [[]|e]; [|by cbn [snd]].
  destruct (for_cleanup_frame (cleanup s2) s2) as (-> & -> & _).
  destruct (for_cleanup_any (cleanup s2) s2) as (-> & _).
  split_and!; assumption.
Qed.

Lemma resort_frame (s : State) :
  let s' := snd (resort s) in
  stop s' = stop s
  ∧ schedule_lock s' = pred (schedule_lock s).
Proof.
  cbn zeta. rewrite resort_eq. cbn zeta.
  destruct (schedule_lock s) eqn:E, (updated s); cbn; rewrite ?E; done.
Qed.

(** A pass, whatever it meets: the flags and the lock are as the calls of
    the other threads left them, and a task object the scheduler does
    not hold is neither re-timed nor picked up. *)
Lemma iteration_frame (others : list action) (s : State) :
  let s2 := snd (concurrently others (after_wait (set_updated false s))) in
  let s' := snd (iteration others s) in
  run s' = run s2 ∧ stop s' = stop s2
  ∧ schedule_lock s' = schedule_lock s2
  ∧ (∀ l, l ∉ schedule s2 ++ addq s2 →
          heap s' !! l = heap s2 !! l ∧ l ∉ schedule s' ++ addq s').
Proof.
  cbn zeta. rewrite iteration_eq. cbn zeta.
  set (s2 := snd (concurrently others _)).
  set (s3 := set_trace _ s2). unfold try_finally.
  destruct (addq s2) as [|newtask rest] eqn:Hq.
  - destruct (fire_due_frame s3) as (Hr & Hst & Hh).
    destruct (fire_due_any s3) as (Ha & Hl & _ & Hsub & _).
    destruct (fire_due s3) as [r s4]. cbn [snd] in *.
    destruct (resort_invariant s4) as (_ & _ & Hh5 & Ha5 & _ & Hr5 & Hs5).
    destruct (resort_frame s4) as (Hst5 & Hl5).
    assert (Hgoal : run (snd (resort s4)) = run s2
              ∧ stop (snd (resort s4)) = stop s2
              ∧ schedule_lock (snd (resort s4)) = schedule_lock s2
              ∧ (∀ l, l ∉ schedule s2 ++ [] →
                   heap (snd (resort s4)) !! l = heap s2 !! l
                   ∧ l ∉ schedule (snd (resort s4))
                         ++ addq (snd (resort s4)))).
    { rewrite Hr5, Hst5, Hl5, Hh5, Ha5, Hr, Hst, Hl, Ha.
      split_and!; try reflexivity.
      intros l Hl0. split.
      - apply Hh. intros Hin. apply Hl0. apply elem_of_app. by left.
      - intros [Hin|Hin]%elem_of_app; apply Hl0, elem_of_app.
        + left. apply Hs5 in Hin. by apply Hsub.
        + right. cbn in Hin. by rewrite Hq in Hin. }
    destruct (resort s4) as [[[]|e] s5]; exact Hgoal.
  - rewrite merge_eq. set (s4 := set_schedule _ _).
    destruct (resort_invariant s4) as (_ & _ & Hh5 & Ha5 & _ & Hr5 & Hs5).
    destruct (resort_frame s4) as (Hst5 & Hl5).
    assert (Hgoal : run (snd (resort s4)) = run s2
              ∧ stop (snd (resort s4)) = stop s2
              ∧ schedule_lock (snd (resort s4)) = schedule_lock s2
              ∧ (∀ l, l ∉ schedule s2 ++ newtask :: rest →
                   heap (snd (resort s4)) !! l = heap s2 !! l
                   ∧ l ∉ schedule (snd (resort s4))
                         ++ addq (snd (resort s4)))).
    { rewrite Hr5, Hst5, Hl5, Hh5, Ha5.
      split_and!; try reflexivity.
      intros l Hl0. split; [reflexivity|].
      intros [Hin|Hin]%elem_of_app; apply Hl0.
      - apply Hs5 in Hin. cbn in Hin.
        apply elem_of_app in Hin as [Hin|Hin]; apply elem_of_app.
        + by left.
        + apply list_elem_of_singleton in Hin as ->. right. by left.
      - cbn in Hin. apply elem_of_app. right. by right. }
    destruct (resort s4) as [[[]|e] s5]; exact Hgoal.
Qed.

Lemma after_wait_frame (s : State) :
  let s' := after_wait (set_updated false s) in
  run s' = run s ∧ stop s' = stop s
  ∧ schedule_lock s' = schedule_lock s
  ∧ heap s' = heap s ∧ schedule s' = schedule s ∧ addq s' = addq s
  ∧ trace s' = trace s.
Proof.
  cbn zeta. unfold after_wait.
  change (schedule (set_updated false s)) with (schedule s).
  destruct (schedule s) eqn:E; split_and!; cbn; rewrite ?E; reflexivity.
Qed.

(** ** The lock *)

Lemma while_loop_lock (env : Env) (fuel i : nat) (s : State) :
  schedule_lock (snd (while_loop env fuel i s)) = schedule_lock s.
Proof.
  revert i s. induction fuel as [|fuel IH]; intros i s;
    rewrite while_loop_eq; cbn zeta;
    destruct (concurrently_frame (before_check env i) s)
      as (_ & _ & Hl & _);
    destruct (run _ && negb (stop _)); try exact Hl.
  unfold bind.
  destruct (iteration_frame (during_get env i)
              (snd (concurrently (before_check env i) s)))
    as (_ & _ & Hit & _).
  destruct (concurrently_frame (during_get env i)
              (after_wait (set_updated false
                 (snd (concurrently (before_check env i) s)))))
    as (_ & _ & Hl2 & _).
  destruct (after_wait_frame (snd (concurrently (before_check env i) s)))
    as (_ & _ & Hl3 & _).
  destruct (iteration _ _) as [[[]|e] s']; cbn [snd] in Hit |- *.
  - rewrite IH. congruence.
  - congruence.
Qed.

(** X1. The scheduler lock is released on every path: after [add]
    (whether it raises [UniqueKeyConstraint] or not), after [remove],
    after a pass of the loop (a pass in which a callback raises
    included) and after any run of [_process], the lock is as deep as
    it was before. *)
Theorem lock_released_on_every_path :
  (∀ name sec cb a kw rep q s,
     schedule_lock (snd (add name sec cb a kw rep q s)) = schedule_lock s)
  ∧ (∀ name s, schedule_lock (snd (remove name s)) = schedule_lock s)
  ∧ (∀ others s,
       schedule_lock (snd (iteration others s)) = schedule_lock s)
  ∧ (∀ env fuel s,
       schedule_lock (snd (_process env fuel s)) = schedule_lock s).
Proof.
  split_and!.
  - intros. apply add_frame.
  - intros. apply remove_frame.
  - intros others s.
    destruct (iteration_frame others s) as (_ & _ & -> & _).
    destruct (concurrently_frame others (after_wait (set_updated false s)))
      as (_ & _ & -> & _).
    apply after_wait_frame.
  - intros env fuel s. unfold _process. unfold bind at 1. unfold modify at 1.
    unfold guarded, try_except, try_except_else. unfold bind at 1.
    pose proof (while_loop_lock env fuel 0 (set_run true s)) as Hw.
    destruct (while_loop env fuel 0 (set_run true s)) as [[[]|e] s'];
      cbn [snd] in Hw; try exact Hw.
    destruct (is_interrupt e); exact Hw.
Qed.

(** ** Leaving the loop *)

Lemma halted_concurrently (acts : list action) (s : State) :
  (halted s → halted (snd (concurrently acts s)))
  ∧ (∀ a, a ∈ acts → halts a = true → halted (snd (concurrently acts s))).
Proof.
  destruct (concurrently_frame acts s) as (Hr & Hst & _).
  unfold halted. rewrite Hr, Hst. split.
  - intros [-> | ->]; [by left|right]. reflexivity.
  - intros a Ha Hhalts. unfold halts in Hhalts.
    apply orb_true_iff in Hhalts as [Hquit|Hstop].
    + left. apply andb_false_iff. right. apply not_true_iff_false.
      intros Hall. rewrite forallb_forall in Hall.
      apply list_elem_of_In in Ha. specialize (Hall a Ha).
      by rewrite Hquit in Hall.
    + right. apply orb_true_iff. right. apply existsb_exists.
      exists a. split; [by apply list_elem_of_In|exact Hstop].
Qed.

Lemma halted_iteration (others : list action) (s : State) :
  (halted s → halted (snd (iteration others s)))
  ∧ (∀ a, a ∈ others → halts a = true →
          halted (snd (iteration others s))).
Proof.
  destruct (iteration_frame others s) as (Hr & Hst & _).
  destruct (halted_concurrently others (after_wait (set_updated false s)))
    as [Hkeep Hkill].
  destruct (after_wait_frame s) as (Hr0 & Hst0 & _).
  unfold halted in *. rewrite Hr, Hst. split.
  - intros H. apply Hkeep. by rewrite Hr0, Hst0.
  - exact Hkill.
Qed.

Lemma while_loop_halted (env : Env) (fuel i : nat) (s : State) :
  halted (snd (concurrently (before_check env i) s)) →
  while_loop env fuel i s
  = (Ok Finished, snd (concurrently (before_check env i) s)).
Proof.
  intros Hh. rewrite while_loop_eq. cbn zeta.
  destruct Hh as [-> | ->]; [reflexivity|]. by rewrite andb_false_r.
Qed.

Lemma while_loop_leaves_before (env : Env) (a : action) (n : nat) :
  halts a = true →
  ∀ fuel i s, a ∈ before_check env (i + n) → n ≤ fuel →
    fst (while_loop env fuel i s) ≠ Ok OutOfFuel.
Proof.
  intros Hhalts. induction n as [|n IH]; intros fuel i s Ha Hfuel.
  - rewrite Nat.add_0_r in Ha. rewrite while_loop_halted; [done|].
    by apply (proj2 (halted_concurrently (before_check env i) s) a).
  - rewrite while_loop_eq. cbn zeta.
    destruct (run _ && negb (stop _)); [|done].
    destruct fuel as [|fuel]; [lia|]. unfold bind.
    destruct (iteration _ _) as [[[]|e] s']; [|done].
    apply IH; [|lia]. by replace (S i + n)%nat with (i + S n)%nat by lia.
Qed.

Lemma while_loop_leaves_during (env : Env) (a : action) (n : nat) :
  halts a = true →
  ∀ fuel i s, a ∈ during_get env (i + n) → n < fuel →
    fst (while_loop env fuel i s) ≠ Ok OutOfFuel.
Proof.
  intros Hhalts. induction n as [|n IH]; intros fuel i s Ha Hfuel.
  - rewrite Nat.add_0_r in Ha. rewrite while_loop_eq. cbn zeta.
    destruct (run _ && negb (stop _)); [|done].
    destruct fuel as [|fuel]; [lia|]. unfold bind.
    destruct (halted_iteration (during_get env i)
                (snd (concurrently (before_check env i) s)))
      as [_ Hkill].
    specialize (Hkill a Ha Hhalts).
    destruct (iteration _ _) as [[[]|e] s']; [|done]. cbn [snd] in Hkill.
    rewrite while_loop_halted; [done|].
    by apply (proj1 (halted_concurrently (before_check env (S i)) s')).
  - rewrite while_loop_eq. cbn zeta.
    destruct (run _ && negb (stop _)); [|done].
    destruct fuel as [|fuel]; [lia|]. unfold bind.
    destruct (iteration _ _) as [[[]|e] s']; [|done].
    apply IH; [|lia]. by replace (S i + n)%nat with (i + S n)%nat by lia.
Qed.

Lemma guarded_outcome (loop : M outcome) (s : State) :
  fst (loop s) ≠ Ok OutOfFuel → fst (guarded loop s) ≠ Ok OutOfFuel.
Proof.
  unfold guarded, try_except, try_except_else, bind.
  destruct (loop s) as [[[]|e] s']; cbn; try done.
  destruct (is_interrupt e); cbn; done.
Qed.

(** X2. [quit()] and the stop event end the loop, and for good: once
    another thread has called [quit()] or set the stop event (no call
    puts [run] back to true or clears the event), the pass under way is
    completed and the loop is left at the next evaluation of its
    condition.  With the call made before the condition of pass [n] is
    evaluated [_process] has returned or raised after [n] passes, with
    the call made during the queue read of pass [n], after [n + 1]. *)
Theorem quit_ends_the_loop (env : Env) (a : action) (n fuel : nat)
    (s : State) :
  halts a = true →
  (a ∈ before_check env n ∧ n ≤ fuel)
  ∨ (a ∈ during_get env n ∧ n < fuel) →
  fst (_process env fuel s) ≠ Ok OutOfFuel.
Proof.
  intros Hhalts Hwhen. unfold _process. unfold bind at 1.
  unfold modify at 1. apply guarded_outcome.
  destruct Hwhen as [[Ha Hn]|[Ha Hn]].
  - by apply (while_loop_leaves_before env a n Hhalts).
  - by apply (while_loop_leaves_during env a n Hhalts).
Qed.

Lemma quit_ends_the_loop_witness :
  fst (_process (mkEnv (λ _, []) (λ i, if Nat.eqb i 2 then [CallQuit] else []))
         3 three_merged) ≠ Ok OutOfFuel.
Proof.
  apply (quit_ends_the_loop _ CallQuit 2 3 three_merged).
  - reflexivity.
  - right. split; [|lia]. cbn. by left.
Defined.

(** X3. With the stop event already set when [_process] starts, no pass
    is made: [_process] sets [run], lets the calls of the other
    threads that land before the first evaluation happen, logs and
    returns. *)
Theorem stop_event_set_at_entry (env : Env) (fuel : nat) (s : State) :
  stop s = true →
  let s1 := snd (concurrently (before_check env 0) (set_run true s)) in
  _process env fuel s =
  (Ok Finished,
   set_trace (trace s1 ++ [LogDebug "Quitting Scheduler thread"]) s1).
Proof.
  intros Hstop s1. unfold _process. unfold bind at 1. unfold modify at 1.
  unfold guarded, try_except, try_except_else. unfold bind at 1.
  rewrite while_loop_halted; [reflexivity|].
  apply (proj1 (halted_concurrently _ _)). by right.
Qed.

Lemma stop_event_set_at_entry_witness :
  fst (_process quiet 5 (Scheduler__init__ true ticking)) = Ok Finished.
Proof.
  by rewrite (stop_event_set_at_entry quiet 5 (Scheduler__init__ true ticking)
                eq_refl).
Defined.

Lemma process_eq (env : Env) (fuel : nat) (s : State) :
  _process env fuel s =
  match while_loop env fuel 0 (set_run true s) with
  | (Ok Finished, s') =>
      (Ok Finished,
       set_trace (trace s' ++ [LogDebug "Quitting Scheduler thread"]) s')
  | (Ok OutOfFuel, s') => (Ok OutOfFuel, s')
  | (Raise e, s') =>
      if is_interrupt e
      then (Ok Finished,
            set_trace (trace s' ++ [LogDebug "Quitting Scheduler thread"])
              (set_run false s'))
      else (Raise e, s')
  end.
Proof.
  unfold _process. unfold bind at 1. unfold modify at 1.
  unfold guarded, try_except, try_except_else. unfold bind at 1.
  destruct (while_loop env fuel 0 (set_run true s)) as [[[]|e] s'];
    try reflexivity.
  destruct (is_interrupt e); reflexivity.
Qed.

(** ** Tasks the scheduler no longer holds *)

Lemma outside_concurrently (l : loc) (acts : list action) (s : State) :
  outside l s →
  heap (snd (concurrently acts s)) !! l = heap s !! l
  ∧ outside l (snd (concurrently acts s)).
Proof.
  intros [Hdom Hout].
  destruct (concurrently_frame acts s) as (_ & _ & _ & _ & Hh & Hin).
  assert (Heq : heap (snd (concurrently acts s)) !! l = heap s !! l)
    by by apply Hh.
  split; [exact Heq|]. split.
  - apply elem_of_dom. rewrite Heq. by apply elem_of_dom.
  - intros Hl. by destruct (Hin l Hl).
Qed.

Lemma outside_iteration (l : loc) (others : list action) (s : State) :
  outside l s →
  heap (snd (iteration others s)) !! l = heap s !! l
  ∧ outside l (snd (iteration others s)).
Proof.
  intros Hout.
  destruct (after_wait_frame s) as (_ & _ & _ & Hh0 & Hs0 & Ha0 & _).
  assert (Hout0 : outside l (after_wait (set_updated false s))).
  { unfold outside. by rewrite Hh0, Hs0, Ha0. }
  destruct (outside_concurrently l others _ Hout0) as [Heq2 [Hdom2 Hout2]].
  destruct (iteration_frame others s) as (_ & _ & _ & Hfr).
  destruct (Hfr l Hout2) as [Heq Hnot].
  assert (Hall : heap (snd (iteration others s)) !! l = heap s !! l)
    by (by rewrite Heq, Heq2, Hh0).
  split; [exact Hall|]. split; [|exact Hnot].
  apply elem_of_dom. rewrite Hall. apply elem_of_dom. apply Hout.
Qed.

Lemma outside_while_loop (l : loc) (env : Env) (fuel i : nat) (s : State) :
  outside l s →
  heap (snd (while_loop env fuel i s)) !! l = heap s !! l
  ∧ outside l (snd (while_loop env fuel i s)).
Proof.
  revert i s. induction fuel as [|fuel IH]; intros i s Hout;
    rewrite while_loop_eq; cbn zeta;
    destruct (outside_concurrently l (before_check env i) s Hout)
      as [Heq1 Hout1];
    destruct (run _ && negb (stop _)); try by split.
  unfold bind.
  destruct (outside_iteration l (during_get env i) _ Hout1) as [Heq2 Hout2].
  destruct (iteration _ _) as [[[]|e] s']; cbn [snd] in *.
  - destruct (IH (S i) s' Hout2) as [Heq3 Hout3].
    split; [|exact Hout3]. by rewrite Heq3, Heq2.
  - split; [|exact Hout2]. by rewrite Heq2.
Qed.

(** X4. A task object that is neither in [active] nor in [pending] (a
    task taken out by [remove], or a one-shot task that has fired) is
    out for good: whatever the other threads call and however many
    passes [_process] makes, the object never comes back into either
    list and its fields, [next] included, are never written again, so
    it never fires again. *)
Theorem forgotten_task_stays_out (env : Env) (fuel : nat) (s : State)
    (l : loc) :
  l ∈ dom (heap s) →
  l ∉ schedule s ++ addq s →
  let s' := snd (_process env fuel s) in
  heap s' !! l = heap s !! l
  ∧ l ∉ schedule s' ++ addq s'.
Proof.
  intros Hdom Hnot. cbn zeta.
  assert (Hout : outside l (set_run true s)) by by split.
  destruct (outside_while_loop l env fuel 0 _ Hout) as [Heq [_ Hout']].
  rewrite process_eq.
  destruct (while_loop env fuel 0 (set_run true s)) as [[[]|e] s'];
    cbn [snd] in *; [by split|by split|].
  destruct (is_interrupt e); by split.
Qed.

Lemma forgotten_task_stays_out_witness :
  let s := snd (remove "ping" three_merged) in
  heap (snd (_process quiet 4 s)) !! 1%nat = heap s !! 1%nat
  ∧ 1%nat ∉ schedule (snd (_process quiet 4 s))
            ++ addq (snd (_process quiet 4 s)).
Proof.
  intros s. apply (forgotten_task_stays_out quiet 4 s 1%nat).
  - apply (bool_decide_unpack _). vm_compute. exact I.
  - apply (bool_decide_unpack _). vm_compute. exact I.
Defined.

(** ** A pass that merges, a pass that finds nothing to do *)

Lemma iteration_merges (s : State) (newtask : loc) (rest : list loc) :
  addq s = newtask :: rest →
  iteration [] s =
  (Ok tt,
   set_lock (schedule_lock s)
     (resorted
        (set_schedule (schedule s ++ [newtask])
           (set_lock (S (schedule_lock s))
              (set_updated true
                 (set_addq rest
                    (set_trace (trace s ++ [get_event (wait_of s)])
                       (after_wait (set_updated false s))))))))).
Proof.
  intros Hq. rewrite iteration_eq. cbn zeta. cbn [concurrently ret snd].
  destruct (after_wait_frame s) as (_ & _ & Hl & _ & Hs & Ha & Ht).
  rewrite Ha, Hq, Ht. unfold try_finally. rewrite merge_eq, resort_eq.
  cbn zeta. cbn [updated schedule_lock schedule trace set_schedule set_lock
                  set_updated set_addq set_trace].
  rewrite Hl, Hs. reflexivity.
Qed.

(** X5. A task waiting in [pending] goes first: in a pass that finds
    [pending] non-empty, the loop takes the oldest pending task, appends
    it to [active] and re-sorts, and that is all it does.  No task
    fires in that pass, due or not, and no task is re-timed. *)
Theorem pending_task_is_merged_first (s : State) (newtask : loc)
    (rest : list loc) :
  addq s = newtask :: rest →
  ∃ s',
    iteration [] s = (Ok tt, s')
    ∧ addq s' = rest
    ∧ schedule s'
      = sorted (λ task, Task.next (heap s !!! task)) (schedule s ++ [newtask])
    ∧ schedule s' ≡ₚ schedule s ++ [newtask]
    ∧ is_sorted s'
    ∧ heap s' = heap s
    ∧ trace s' = trace s ++ [get_event (wait_of s)].
Proof.
  intros Hq. rewrite (iteration_merges s newtask rest Hq).
  destruct (after_wait_frame s) as (_ & _ & _ & Hh & _).
  eexists. split; [reflexivity|].
  assert (Hsched : schedule (set_lock (schedule_lock s)
            (resorted
               (set_schedule (schedule s ++ [newtask])
                  (set_lock (S (schedule_lock s))
                     (set_updated true
                        (set_addq rest
                           (set_trace (trace s ++ [get_event (wait_of s)])
                              (after_wait (set_updated false s))))))))) =
          sorted (λ task, Task.next (heap s !!! task))
                 (schedule s ++ [newtask])).
  { cbn. by rewrite Hh. }
  split_and!.
  - reflexivity.
  - exact Hsched.
  - rewrite Hsched. apply sorted_perm.
  - apply (is_sorted_resorted
             (set_schedule (schedule s ++ [newtask])
                (set_lock (S (schedule_lock s))
                   (set_updated true
                      (set_addq rest
                         (set_trace (trace s ++ [get_event (wait_of s)])
                            (after_wait (set_updated false s)))))))).
  - cbn. exact Hh.
  - reflexivity.
Qed.

Lemma pending_task_is_merged_first_witness :
  let s := snd (add "new" 1 noop None None false None three_merged) in
  ∃ s', iteration [] s = (Ok tt, s')
        ∧ addq s' = []
        ∧ heap s' = heap s.
Proof.
  intros s.
  destruct (pending_task_is_merged_first s 3%nat [])
    as (s' & Hit & Hq & _ & _ & _ & Hh & _).
  { vm_compute. reflexivity. }
  exists s'. by split_and!.
Defined.

Lemma iteration_idle (s : State) :
  addq s = [] →
  (∀ l, head (schedule s) = Some l →
        (clock s (S (ticks s)) < Task.next (heap s !!! l))%Q) →
  iteration [] s =
  (Ok tt,
   set_lock (schedule_lock s)
     (match schedule s with
      | [] => set_cleanup [] (set_trace (trace s ++ [get_event (wait_of s)])
                                (set_updated false s))
      | _ :: _ =>
          set_ticks (S (S (ticks s)))
            (set_cleanup [] (set_trace (trace s ++ [get_event (wait_of s)])
                               (set_updated false s)))
      end)).
Proof.
  intros Hq Hhead. rewrite iteration_eq. cbn zeta. cbn [concurrently ret snd].
  destruct (after_wait_frame s) as (_ & _ & _ & _ & _ & Ha & _).
  rewrite Ha, Hq. unfold try_finally. rewrite fire_due_eq.
  unfold after_wait, wait_of.
  change (schedule (set_updated false s)) with (schedule s).
  destruct (schedule s) as [|l tasks] eqn:Hs.
  - cbn [schedule set_trace set_updated]. rewrite Hs.
    cbn [for_schedule ret]. cbn [cleanup set_lock set_cleanup for_cleanup ret].
    rewrite resort_eq. cbn. reflexivity.
  - cbn [schedule set_trace set_updated set_ticks]. rewrite Hs.
    rewrite for_schedule_break.
    + cbn [cleanup set_ticks set_lock set_cleanup for_cleanup ret].
      rewrite resort_eq. cbn. reflexivity.
    + apply due_now_false. cbn. by apply Hhead.
Qed.

(** X6. A pass that finds nothing to do changes nothing: with [pending]
    empty and [active] empty, or headed by a task that is not due at
    the reading the scan takes, the pass returns with [active],
    [pending], every task, the flags and the lock as they were; only
    the read of [pending] (and the clock readings) took place. *)
Theorem idle_pass_changes_nothing (s : State) :
  addq s = [] →
  (∀ l, head (schedule s) = Some l →
        (clock s (S (ticks s)) < Task.next (heap s !!! l))%Q) →
  ∃ s',
    iteration [] s = (Ok tt, s')
    ∧ schedule s' = schedule s
    ∧ addq s' = addq s
    ∧ heap s' = heap s
    ∧ run s' = run s ∧ stop s' = stop s
    ∧ schedule_lock s' = schedule_lock s
    ∧ trace s' = trace s ++ [get_event (wait_of s)].
Proof.
  intros Hq Hhead. rewrite (iteration_idle s Hq Hhead).
  eexists. split; [reflexivity|].
  destruct (schedule s) eqn:Hs; cbn; rewrite ?Hs; split_and!; reflexivity.
Qed.

Lemma idle_pass_changes_nothing_witness :
  ∃ s', iteration [] (Scheduler__init__ false ticking) = (Ok tt, s')
        ∧ trace s' = [AddqGet true (Some 1%Q)].
Proof.
  destruct (idle_pass_changes_nothing (Scheduler__init__ false ticking))
    as (s' & Hit & _ & _ & _ & _ & _ & _ & Htr).
  - reflexivity.
  - intros l Hl. discriminate Hl.
  - exists s'. split; [exact Hit|]. exact Htr.
Defined.

(** ** How [add], [remove] and the loop compose *)

Lemma elem_of_sorted {A} (key : A → Q) (l : list A) (x : A) :
  x ∈ sorted key l ↔ x ∈ l.
Proof. by rewrite sorted_perm. Qed.

Lemma add_then_merge name sec cb a kw rep q (s : State) :
  addq s = [] → ¬ name_in_active name s →
  let l := fresh (dom (heap s)) in
  let s2 := snd (iteration [] (snd (add name sec cb a kw rep q s))) in
  fst (add name sec cb a kw rep q s) = Ok tt
  ∧ l ∈ schedule s2
  ∧ Task.name (heap s2 !!! l) = name
  ∧ addq s2 = [].
Proof.
  intros Hq Hno l. cbn zeta. rewrite add_eq.
  assert (Hex : existsb (has_name name (heap s)) (schedule s) = false).
  { apply not_true_is_false. intros Hex. apply Hno.
    by apply name_in_active_existsb. }
  rewrite Hex. cbn [fst snd].
  set (s1 := set_addq _ _).
  assert (Hq1 : addq s1 = l :: []) by (subst s1; cbn; by rewrite Hq).
  rewrite (iteration_merges s1 l [] Hq1). cbn [snd].
  destruct (after_wait_frame s1) as (_ & _ & _ & Hh & _).
  split_and!.
  - reflexivity.
  - cbn. apply elem_of_sorted. apply elem_of_app. right. by left.
  - cbn. rewrite Hh. subst s1. cbn. by rewrite lookup_total_insert_eq.
  - reflexivity.
Qed.

(** X7. The duplicate check works once the task is merged: after
    [add(name, ...)] on a scheduler with nothing pending and one pass of
    the loop, the task is in [active] and a further [add] with the same
    name raises [UniqueKeyConstraint]. *)
Theorem merged_name_is_rejected name sec cb a kw rep q
    sec' cb' a' kw' rep' q' (s : State) :
  addq s = [] → ¬ name_in_active name s →
  let s2 := snd (iteration [] (snd (add name sec cb a kw rep q s))) in
  fst (add name sec cb a kw rep q s) = Ok tt
  ∧ name_in_active name s2
  ∧ add name sec' cb' a' kw' rep' q' s2
    = (Raise (UniqueKeyConstraint ("Key " +:+ name +:+ " already exists")),
       s2).
Proof.
  intros Hq Hno s2.
  destruct (add_then_merge name sec cb a kw rep q s Hq Hno)
    as (Hok & Hin & Hname & _).
  fold s2 in Hin, Hname.
  assert (Hact : name_in_active name s2) by (eexists; eauto).
  split_and!; [exact Hok|exact Hact|].
  rewrite add_eq. apply name_in_active_existsb in Hact. by rewrite Hact.
Qed.

Lemma merged_name_is_rejected_witness :
  let s2 := snd (iteration [] (snd (add "ping" 1 noop None None true None
                                      (Scheduler__init__ false ticking)))) in
  fst (add "ping" 5 noop None None false None s2)
  = Raise (UniqueKeyConstraint "Key ping already exists").
Proof.
  intros s2.
  destruct (merged_name_is_rejected "ping" 1 noop None None true None
              5 noop None None false None (Scheduler__init__ false ticking))
    as (_ & _ & Hraise).
  - reflexivity.
  - intros (l & Hl & _). cbn in Hl. by apply elem_of_nil in Hl.
  - fold s2 in Hraise. by rewrite Hraise.
Defined.

Lemma remove_absent name (s : State) :
  ¬ name_in_active name s → remove name s = (Ok tt, s).
Proof.
  intros Hno. rewrite remove_eq.
  apply named_nil_iff in Hno. by rewrite Hno.
Qed.

(** X8. [remove] cannot cancel a task that is still in [pending]: a
    [remove(name)] made after [add(name, ...)] and before the loop has
    merged the task does nothing, and the next pass puts the task into
    [active] all the same. *)
Theorem remove_misses_pending_task name sec cb a kw rep q (s : State) :
  addq s = [] → no_dangling s → ¬ name_in_active name s →
  let s1 := snd (add name sec cb a kw rep q s) in
  remove name s1 = (Ok tt, s1)
  ∧ name_in_active name (snd (iteration [] (snd (remove name s1)))).
Proof.
  intros Hq Hwf Hno s1.
  destruct (add_then_merge name sec cb a kw rep q s Hq Hno)
    as (Hok & Hin & Hname & _).
  fold s1 in Hin, Hname.
  assert (Hno1 : ¬ name_in_active name s1).
  { intros (l & Hl & Hn). apply Hno. exists l.
    destruct (add_frame name sec cb a kw rep q s)
      as (_ & _ & _ & _ & Hs & Hh & _).
    fold s1 in Hs, Hh. rewrite Hs in Hl. split; [exact Hl|].
    assert (Hd : l ∈ dom (heap s)).
    { apply Hwf. apply elem_of_app. by left. }
    rewrite <- Hn. unfold lookup_total, map_lookup_total.
    by rewrite (Hh l Hd). }
  rewrite (remove_absent name s1 Hno1). split; [reflexivity|].
  cbn [snd]. eexists. split; [exact Hin|exact Hname].
Qed.

Lemma remove_misses_pending_task_witness :
  let s1 := snd (add "ping" 1 noop None None true None
                   (Scheduler__init__ false ticking)) in
  name_in_active "ping" (snd (iteration [] (snd (remove "ping" s1)))).
Proof.
  intros s1.
  apply (remove_misses_pending_task "ping" 1 noop None None true None
           (Scheduler__init__ false ticking)).
  - reflexivity.
  - intros l Hl. cbn in Hl. by apply elem_of_nil in Hl.
  - intros (l & Hl & _). cbn in Hl. by apply elem_of_nil in Hl.
Defined.

Lemma remove_named_count name (s : State) :
  heap (snd (remove name s)) = heap s
  ∧ length (List.filter (has_name name (heap s))
              (schedule (snd (remove name s))))
    = pred (length (List.filter (has_name name (heap s)) (schedule s))).
Proof.
  rewrite remove_eq.
  destruct (last (List.filter _ _)) as [l|] eqn:Hlast.
  - destruct (last_named_elem _ _ _ _ Hlast) as (pre0 & post0 & Hs & Hn & _).
    assert (Hin : l ∈ schedule s).
    { rewrite Hs. apply elem_of_app. right. by left. }
    destruct (list_remove_first l (schedule s) Hin)
      as (pre & post & Hsplit & _ & ->).
    cbn. split; [reflexivity|]. rewrite Hsplit.
    rewrite !List.filter_app. cbn [List.filter]. rewrite Hn.
    rewrite !length_app. cbn [length]. lia.
  - apply last_None in Hlast. cbn. by rewrite Hlast.
Qed.

(** X9. A name can be used again after [remove] when it was carried by
    at most one task of [active]: [add] with that name then succeeds.
    With two or more tasks of that name in [active], one [remove] is
    not enough and the [add] still raises [UniqueKeyConstraint]. *)
Theorem name_free_after_remove name sec cb a kw rep q (s : State) :
  let carriers := length (List.filter (has_name name (heap s)) (schedule s)) in
  (carriers ≤ 1 →
   fst (add name sec cb a kw rep q (snd (remove name s))) = Ok tt)
  ∧ (2 ≤ carriers →
     fst (add name sec cb a kw rep q (snd (remove name s)))
     = Raise (UniqueKeyConstraint ("Key " +:+ name +:+ " already exists"))).
Proof.
  intros carriers. destruct (remove_named_count name s) as [Hh Hcount].
  fold carriers in Hcount. rewrite add_eq. rewrite Hh. split; intros Hc.
  - assert (Hnil : List.filter (has_name name (heap s))
                     (schedule (snd (remove name s))) = []).
    { apply length_zero_iff_nil. lia. }
    destruct (existsb _ _) eqn:Hex; [|reflexivity].
    apply existsb_exists in Hex as (l & Hl & Hn).
    assert (Hin : In l (List.filter (has_name name (heap s))
                          (schedule (snd (remove name s)))))
      by (apply filter_In; done).
    rewrite Hnil in Hin. destruct Hin.
  - destruct (List.filter (has_name name (heap s))
                (schedule (snd (remove name s)))) as [|l r] eqn:Hf.
    { cbn in Hcount. lia. }
    assert (Hin : In l (l :: r)) by by left.
    rewrite <- Hf in Hin. apply filter_In in Hin as [Hl Hn].
    assert (Hex : existsb (has_name name (heap s))
                    (schedule (snd (remove name s))) = true).
    { apply existsb_exists. by exists l. }
    by rewrite Hex.
Qed.

Lemma name_free_after_remove_witness :
  fst (add "ping" 1 noop None None true None
         (snd (remove "ping" three_merged))) = Ok tt.
Proof.
  destruct (name_free_after_remove "ping" 1 noop None None true None
              three_merged) as [Hfree _].
  apply Hfree. vm_compute. lia.
Defined.

(** ** The head of [active] *)

(** X10. With [active] sorted, its head is the task that is due first:
    the wait computed at the top of a pass, [active[0].next - now], is
    no longer than the time left to any task of [active], so the loop
    never sleeps past the due time of a scheduled task. *)
Theorem wait_is_time_to_earliest_task (s : State) (l : loc) :
  is_sorted s → l ∈ schedule s →
  (wait_of s <= Task.next (heap s !!! l) - clock s (ticks s))%Q
  ∧ ∃ first, head (schedule s) = Some first
             ∧ (Task.next (heap s !!! first) <= Task.next (heap s !!! l))%Q.
Proof.
  intros Hs Hl. unfold wait_of.
  destruct (schedule s) as [|first rest] eqn:Hsch;
    [by apply elem_of_nil in Hl|].
  assert (Hle : (Task.next (heap s !!! first)
                 <= Task.next (heap s !!! l))%Q).
  { apply (sorted_tail_above s [] (first :: rest) first Hs);
      [by rewrite Hsch|reflexivity|exact Hl]. }
  split; [lra|]. exists first. by split.
Qed.

Lemma wait_is_time_to_earliest_task_witness :
  (wait_of three_merged
   <= Task.next (heap three_merged !!! 2%nat)
      - clock three_merged (ticks three_merged))%Q.
Proof.
  apply (wait_is_time_to_earliest_task three_merged 2%nat).
  - unfold three_merged. cbn zeta. apply process_invariant. split.
    + intros l Hl. vm_compute in Hl.
      repeat (apply elem_of_cons in Hl as [->|Hl]);
        try (by apply elem_of_nil in Hl);
        apply (bool_decide_unpack _); vm_compute; exact I.
    + constructor.
  - apply (bool_decide_unpack _). vm_compute. exact I.
Defined.

(** ** Distinct task objects *)

Lemma for_cleanup_sublist (marked : list loc) (s : State) :
  schedule (snd (for_cleanup marked s)) `sublist_of` schedule s.
Proof.
  revert s. induction marked as [|m marked IH]; intros s; [done|].
  cbn [for_cleanup]. unfold bind, schedule_pop_index.
  destruct (index m (schedule s)) as [i|]; [|done].
  etrans; [apply IH|]. cbn. apply sublist_delete.
Qed.

Lemma fire_due_sublist (s : State) :
  schedule (snd (fire_due s)) `sublist_of` schedule s.
Proof.
  rewrite fire_due_eq. set (s1 := set_lock _ _).
  destruct (for_schedule_any (schedule s) s1) as (Hs & _).
  destruct (for_schedule (schedule s) s1) as [[[]|e] s2]; cbn [snd] in *.
  - etrans; [apply for_cleanup_sublist|]. by rewrite Hs.
  - by rewrite Hs.
Qed.

Lemma resort_perm (s : State) : schedule (snd (resort s)) ≡ₚ schedule s.
Proof.
  rewrite resort_eq. cbn zeta.
  destruct (schedule_lock s), (updated s); cbn; try reflexivity;
    apply sorted_perm.
Qed.

Lemma add_distinct name sec cb a kw rep q (s : State) :
  no_dangling s → NoDup (schedule s ++ addq s) →
  NoDup (schedule (snd (add name sec cb a kw rep q s))
         ++ addq (snd (add name sec cb a kw rep q s))).
Proof.
  intros Hwf Hnd. rewrite add_eq. destruct (existsb _ _); [exact Hnd|].
  cbn. rewrite app_assoc. apply NoDup_app. split; [exact Hnd|]. split.
  - intros l Hl Hl'. apply list_elem_of_singleton in Hl'. subst l.
    by apply (is_fresh (dom (heap s))), Hwf.
  - apply NoDup_singleton.
Qed.

Lemma remove_distinct name (s : State) :
  NoDup (schedule s ++ addq s) →
  NoDup (schedule (snd (remove name s)) ++ addq (snd (remove name s))).
Proof.
  intros Hnd.
  destruct (remove_cases name s) as [->|(pre & l & post & Hs & ->)];
    [exact Hnd|].
  cbn. eapply sublist_NoDup; [exact Hnd|]. rewrite Hs.
  apply sublist_app; [|done]. apply sublist_app; [done|].
  by apply sublist_cons.
Qed.

Lemma perform_distinct (a : action) (s : State) :
  invariant s → NoDup (schedule s ++ addq s) →
  NoDup (schedule (snd (perform a s)) ++ addq (snd (perform a s))).
Proof.
  intros [Hwf _] Hnd.
  destruct a as [n sec cb ar kw rep q|n| |]; cbn [perform];
    rewrite ?elsewhere_ok; cbn [snd].
  - by apply add_distinct.
  - by apply remove_distinct.
  - exact Hnd.
  - exact Hnd.
Qed.

Lemma concurrently_distinct (acts : list action) (s : State) :
  invariant s → NoDup (schedule s ++ addq s) →
  NoDup (schedule (snd (concurrently acts s))
         ++ addq (snd (concurrently acts s))).
Proof.
  revert s. induction acts as [|a acts IH]; intros s Hinv Hnd; [exact Hnd|].
  cbn [concurrently]. unfold bind. rewrite perform_ok.
  apply IH.
  - by apply perform_invariant.
  - by apply perform_distinct.
Qed.

Lemma iteration_distinct (others : list action) (s : State) :
  invariant s → NoDup (schedule s ++ addq s) →
  NoDup (schedule (snd (iteration others s))
         ++ addq (snd (iteration others s))).
Proof.
  intros Hinv Hnd. rewrite iteration_eq. cbn zeta.
  destruct (after_wait_frame s) as (_ & _ & _ & Hh0 & Hs0 & Ha0 & _).
  assert (Hinv0 : invariant (after_wait (set_updated false s))).
  { destruct Hinv as [Hwf Hs]. split.
    - unfold no_dangling. by rewrite Hh0, Hs0, Ha0.
    - unfold is_sorted. by rewrite Hh0, Hs0. }
  assert (Hnd0 : NoDup (schedule (after_wait (set_updated false s))
                        ++ addq (after_wait (set_updated false s))))
    by (by rewrite Hs0, Ha0).
  pose proof (concurrently_distinct others _ Hinv0 Hnd0) as Hnd2.
  set (s2 := snd (concurrently others _)) in *.
  set (s3 := set_trace _ s2). unfold try_finally.
  destruct (addq s2) as [|newtask rest] eqn:Hq.
  - pose proof (fire_due_sublist s3) as Hsub.
    destruct (fire_due_any s3) as (Ha & _).
    destruct (fire_due s3) as [r s4]. cbn [snd] in *.
    pose proof (resort_perm s4) as Hperm.
    destruct (resort_invariant s4) as (_ & _ & _ & Ha5 & _).
    assert (Hgoal : NoDup (schedule (snd (resort s4))
                           ++ addq (snd (resort s4)))).
    { rewrite Hperm, Ha5, Ha. eapply sublist_NoDup; [exact Hnd2|].
      change (addq s3) with (addq s2). rewrite Hq.
      by apply sublist_app. }
    destruct (resort s4) as [[[]|e] s5]; exact Hgoal.
  - rewrite merge_eq. set (s4 := set_schedule _ _).
    pose proof (resort_perm s4) as Hperm.
    destruct (resort_invariant s4) as (_ & _ & _ & Ha5 & _).
    assert (Hgoal : NoDup (schedule (snd (resort s4))
                           ++ addq (snd (resort s4)))).
    { rewrite Hperm, Ha5. subst s4. cbn. rewrite <- app_assoc. cbn.
      exact Hnd2. }
    destruct (resort s4) as [[[]|e] s5]; exact Hgoal.
Qed.

Lemma while_loop_distinct (env : Env) (fuel i : nat) (s : State) :
  invariant s → NoDup (schedule s ++ addq s) →
  NoDup (schedule (snd (while_loop env fuel i s))
         ++ addq (snd (while_loop env fuel i s))).
Proof.
  revert i s. induction fuel as [|fuel IH]; intros i s Hinv Hnd;
    rewrite while_loop_eq; cbn zeta;
    pose proof (concurrently_distinct (before_check env i) s Hinv Hnd) as Hc;
    destruct (concurrently_invariant (before_check env i) s) as [Hi _];
    specialize (Hi Hinv);
    destruct (run _ && negb (stop _)); try exact Hc.
  unfold bind.
  pose proof (iteration_distinct (during_get env i) _ Hi Hc) as Hit.
  pose proof (iteration_invariant (during_get env i) _ Hi) as Hinv'.
  destruct (iteration _ _) as [[[]|e] s']; cbn [snd] in *.
  - by apply IH.
  - exact Hit.
Qed.

(** X11. The scheduler never holds the same task object twice: every
    [add] creates a new object, and [remove], the merge and the firing
    only move or drop objects.  So in every state reached from a fresh
    scheduler, whatever the other threads call and whatever the
    callbacks do, the task objects in [active] and [pending] are
    pairwise distinct and alive. *)
Theorem task_objects_stay_distinct (env : Env) (fuel : nat) :
  (∀ s, well_formed s → is_sorted s →
        well_formed (snd (_process env fuel s)))
  ∧ (∀ stopevent clk,
       well_formed (snd (_process env fuel (Scheduler__init__ stopevent clk)))).
Proof.
  assert (Hmain : ∀ s, well_formed s → is_sorted s →
                       well_formed (snd (_process env fuel s))).
  { intros s [Hnd Hwf] Hs.
    assert (Hinv : invariant (set_run true s)) by by split.
    pose proof (while_loop_distinct env fuel 0 _ Hinv Hnd) as Hd.
    pose proof (while_loop_invariant env fuel 0 _ Hinv) as [Hwf' _].
    rewrite process_eq.
    destruct (while_loop env fuel 0 (set_run true s)) as [[[]|e] s'];
      cbn [snd] in *; [by split|by split|].
    destruct (is_interrupt e); by split. }
  split; [exact Hmain|]. intros stopevent clk. apply Hmain.
  - split; [constructor|]. apply init_invariant.
  - apply init_invariant.
Qed.

Lemma task_objects_stay_distinct_witness :
  well_formed (snd (_process quiet 4 three_merged)).
Proof.
  destruct (task_objects_stay_distinct quiet 4) as [Hkeep Hinit].
  apply Hkeep.
  - unfold three_merged. cbn zeta.
    destruct (task_objects_stay_distinct quiet 3) as [Hkeep3 _].
    apply Hkeep3.
    + split.
      * apply (bool_decide_unpack _). vm_compute. exact I.
      * intros l Hl. vm_compute in Hl.
        repeat (apply elem_of_cons in Hl as [->|Hl]);
          try (by apply elem_of_nil in Hl);
          apply (bool_decide_unpack _); vm_compute; exact I.
    + constructor.
  - unfold three_merged. cbn zeta. apply process_invariant. split.
    + intros l Hl. vm_compute in Hl.
      repeat (apply elem_of_cons in Hl as [->|Hl]);
        try (by apply elem_of_nil in Hl);
        apply (bool_decide_unpack _); vm_compute; exact I.
    + constructor.
Defined.

(** ** Runs in which every callback returns *)

Lemma set_next_twice (v v' : Q) (t : Task.t) :
  Task.set_next v' (Task.set_next v t) = Task.set_next v' t.
Proof. reflexivity. Qed.

Lemma fire_all_lookup (due : list loc) (s : State) (l : loc) :
  heap (fire_all due s) !!! l = heap s !!! l
  ∨ ∃ v, heap (fire_all due s) !!! l = Task.set_next v (heap s !!! l).
Proof.
  revert s. induction due as [|l0 due IH]; intros s; [by left|].
  rewrite fire_all_cons.
  assert (Hone : heap (fire_one l0 s) !!! l = heap s !!! l
                 ∨ ∃ v, heap (fire_one l0 s) !!! l
                        = Task.set_next v (heap s !!! l)).
  { cbn. rewrite retimed_lookup.
    destruct (decide (l0 = l)) as [->|]; [right; eauto|by left]. }
  destruct (IH (fire_one l0 s)) as [->|[v ->]]; [exact Hone|].
  destruct Hone as [->|[v' ->]]; right; eauto.
Qed.

Lemma fire_due_returns (s : State) :
  NoDup (schedule s) →
  (∀ l, l ∈ schedule s → failure (heap s !!! l) = None) →
  ∃ due rest s',
    schedule s = due ++ rest
    ∧ fire_due s = (Ok tt, s')
    ∧ trace s' = trace s ++ map (λ l, firing (heap s !!! l)) due
    ∧ (∀ l, heap s' !!! l = heap s !!! l
            ∨ ∃ v, heap s' !!! l = Task.set_next v (heap s !!! l)).
Proof.
  intros Hnd Hok.
  set (s1 := set_lock (S (schedule_lock s)) (set_cleanup [] s)).
  destruct (for_schedule_spec (schedule s) s1 Hnd Hok)
    as (due & rest & Hsplit & Hrun & _).
  set (s2 := match rest with
             | [] => fire_all due s1
             | _ :: _ => set_ticks (S (ticks (fire_all due s1)))
                           (fire_all due s1)
             end) in Hrun.
  assert (Hheap2 : heap s2 = heap (fire_all due s1))
    by (subst s2; by destruct rest).
  assert (Htrace2 : trace s2 = trace (fire_all due s1))
    by (subst s2; by destruct rest).
  assert (Hsched2 : schedule s2 = [] ++ due ++ rest).
  { subst s2. destruct rest; cbn [schedule set_ticks];
      by rewrite (proj1 (fire_all_frame due s1)). }
  assert (Hclean2 : cleanup s2
            = List.filter (λ l, negb (Task.repeat (heap s !!! l))) due).
  { subst s2. destruct rest; cbn [cleanup set_ticks];
      by rewrite fire_all_cleanup. }
  assert (Hnd' : NoDup ([] ++ due)).
  { rewrite Hsplit in Hnd. by apply NoDup_app in Hnd as (? & _ & _). }
  pose proof (for_cleanup_spec (λ l, Task.repeat (heap s !!! l)) due
                [] rest s2 Hsched2 Hnd') as Hclean.
  cbn [app] in Hclean.
  eexists due, rest, _. split; [exact Hsplit|]. split.
  { rewrite fire_due_eq. fold s1. rewrite Hrun, Hclean2. exact Hclean. }
  split.
  - cbn [trace set_schedule]. rewrite Htrace2, fire_all_trace. reflexivity.
  - intros l. cbn [heap set_schedule]. rewrite Hheap2.
    apply (fire_all_lookup due s1 l).
Qed.

Lemma get_event_is_get (wait : Q) :
  ∃ block timeout, get_event wait = AddqGet block timeout.
Proof. unfold get_event. destruct (Qle_bool wait 0); eauto. Qed.

Section tasks_that_return.
Context (P : Task.t → Prop).
Hypothesis P_static : ∀ v t, P t → P (Task.set_next v t).
Hypothesis P_returns : ∀ t, P t → failure t = None.

Lemma add_satisfies name sec cb a kw rep q (s : State) :
  no_dangling s → tasks_satisfy P s →
  action_satisfies P (CallAdd name sec cb a kw rep q) →
  tasks_satisfy P (snd (add name sec cb a kw rep q s)).
Proof.
  intros Hwf Hall Hnew. rewrite add_eq. destruct (existsb _ _); [exact Hall|].
  intros l Hl. cbn in Hl |- *.
  rewrite app_assoc in Hl. apply elem_of_app in Hl as [Hl|Hl].
  - rewrite lookup_total_insert_ne; [by apply Hall|].
    intros <-. by apply (is_fresh (dom (heap s))), Hwf.
  - apply list_elem_of_singleton in Hl as ->.
    rewrite lookup_total_insert_eq. apply Hnew.
Qed.

Lemma remove_satisfies name (s : State) :
  tasks_satisfy P s → tasks_satisfy P (snd (remove name s)).
Proof.
  intros Hall.
  destruct (remove_cases name s) as [->|(pre & l & post & Hs & ->)];
    [exact Hall|].
  intros l' Hl'. cbn in Hl' |- *. apply Hall. rewrite Hs.
  rewrite !elem_of_app in Hl'. rewrite !elem_of_app, elem_of_cons. tauto.
Qed.

Lemma perform_satisfies (a : action) (s : State) :
  no_dangling s → tasks_satisfy P s → action_satisfies P a →
  tasks_satisfy P (snd (perform a s)).
Proof.
  intros Hwf Hall Ha.
  destruct a as [n sec cb ar kw rep q|n| |]; cbn [perform];
    rewrite ?elsewhere_ok; cbn [snd].
  - by apply add_satisfies.
  - by apply remove_satisfies.
  - exact Hall.
  - exact Hall.
Qed.

Lemma concurrently_satisfies (acts : list action) (s : State) :
  invariant s → tasks_satisfy P s →
  (∀ a, a ∈ acts → action_satisfies P a) →
  tasks_satisfy P (snd (concurrently acts s)).
Proof.
  revert s. induction acts as [|a acts IH]; intros s Hinv Hall Hacts;
    [exact Hall|].
  cbn [concurrently]. unfold bind. rewrite perform_ok. apply IH.
  - by apply perform_invariant.
  - apply perform_satisfies; [apply Hinv|exact Hall|]. apply Hacts. by left.
  - intros a' Ha'. apply Hacts. by right.
Qed.

(** One pass returns, keeps the tasks in [P] and leaves only events of
    the loop. *)
Lemma iteration_returns (others : list action) (s : State) :
  invariant s → NoDup (schedule s ++ addq s) → tasks_satisfy P s →
  (∀ a, a ∈ others → action_satisfies P a) →
  ∃ s' evs,
    iteration others s = (Ok tt, s')
    ∧ tasks_satisfy P s'
    ∧ trace s' = trace s ++ evs
    ∧ Forall (loop_event P) evs.
Proof.
  intros Hinv Hnd Hall Hacts. rewrite iteration_eq. cbn zeta.
  destruct (after_wait_frame s) as (_ & _ & _ & Hh0 & Hs0 & Ha0 & Ht0).
  assert (Hinv0 : invariant (after_wait (set_updated false s))).
  { destruct Hinv as [Hwf Hs]. split.
    - unfold no_dangling. by rewrite Hh0, Hs0, Ha0.
    - unfold is_sorted. by rewrite Hh0, Hs0. }
  assert (Hnd0 : NoDup (schedule (after_wait (set_updated false s))
                        ++ addq (after_wait (set_updated false s))))
    by (by rewrite Hs0, Ha0).
  assert (Hall0 : tasks_satisfy P (after_wait (set_updated false s))).
  { unfold tasks_satisfy. by rewrite Hh0, Hs0, Ha0. }
  pose proof (concurrently_distinct others _ Hinv0 Hnd0) as Hnd2.
  pose proof (concurrently_satisfies others _ Hinv0 Hall0 Hacts) as Hall2.
  destruct (concurrently_frame others (after_wait (set_updated false s)))
    as (_ & _ & _ & Ht2 & _).
  set (s2 := snd (concurrently others _)) in *.
  set (w := wait_of (set_updated false s)).
  set (s3 := set_trace _ s2). unfold try_finally.
  destruct (get_event_is_get w) as (block & timeout & Hev).
  destruct (addq s2) as [|newtask rest] eqn:Hq.
  - assert (Hnd3 : NoDup (schedule s3)).
    { rewrite app_nil_r in Hnd2. exact Hnd2. }
    assert (Hok3 : ∀ l, l ∈ schedule s3 → failure (heap s3 !!! l) = None).
    { intros l Hl. apply P_returns, Hall2. apply elem_of_app. by left. }
    destruct (fire_due_returns s3 Hnd3 Hok3)
      as (due & tail & s4 & Hsplit & Hrun & Htr4 & Hh4).
    destruct (fire_due_any s3) as (Ha4 & Hl4 & _ & Hsub & _).
    rewrite Hrun in Ha4, Hl4, Hsub |- *. cbn [snd] in Ha4, Hl4, Hsub.
    rewrite resort_eq. cbn zeta. rewrite Hl4.
    eexists _, ([get_event w] ++ map (λ l, firing (heap s3 !!! l)) due).
    split; [reflexivity|]. split_and!.
    + intros l Hl.
      assert (Hl3 : l ∈ schedule s3).
      { destruct (updated s4); cbn in Hl; rewrite Ha4 in Hl;
          change (addq s3) with (addq s2) in Hl; rewrite Hq in Hl;
          rewrite app_nil_r in Hl; apply Hsub; [|exact Hl].
        by apply elem_of_sorted in Hl. }
      assert (HP : P (heap s3 !!! l)).
      { apply Hall2. apply elem_of_app. by left. }
      assert (Hheap : ∀ st, heap st = heap s4 → P (heap st !!! l)).
      { intros st ->. destruct (Hh4 l) as [->|[v ->]];
          [exact HP|by apply P_static]. }
      apply Hheap. by destruct (updated s4).
    + assert (Htr : ∀ st, trace st = trace s4 →
                trace st = trace s ++ [get_event w]
                           ++ map (λ l, firing (heap s3 !!! l)) due).
      { intros st ->. rewrite Htr4. subst s3. cbn [trace set_trace].
        rewrite Ht2, Ht0. by rewrite <- app_assoc. }
      apply Htr. by destruct (updated s4).
    + apply Forall_app. split.
      * constructor; [|constructor]. left. rewrite Hev. eauto.
      * apply List.Forall_forall. intros ev Hin.
        apply in_map_iff in Hin as (l & <- & Hl).
        right. left. exists (heap s3 !!! l). split; [|reflexivity].
        apply Hall2. apply elem_of_app. left.
        change (schedule s2) with (schedule s3). rewrite Hsplit.
        apply elem_of_app. left. by apply list_elem_of_In.
  - rewrite merge_eq, resort_eq. cbn zeta.
    cbn [updated schedule_lock set_schedule set_lock set_updated].
    eexists _, [get_event w]. split; [reflexivity|]. split_and!.
    + intros l Hl. unfold resorted in Hl |- *.
      cbn [schedule addq heap set_lock set_schedule set_updated set_addq
           set_trace] in Hl |- *.
      apply Hall2.
      rewrite elem_of_app, elem_of_sorted, elem_of_app in Hl.
      rewrite Hq, elem_of_app, elem_of_cons.
      destruct Hl as [[Hl|Hl]|Hl]; [by left| |right; by right].
      apply list_elem_of_singleton in Hl. right. by left.
    + cbn. by rewrite Ht2, Ht0.
    + constructor; [|constructor]. left. rewrite Hev. eauto.
Qed.

Lemma while_loop_returns (env : Env) (fuel i : nat) (s : State) :
  invariant s → NoDup (schedule s ++ addq s) → tasks_satisfy P s →
  env_satisfies P env →
  ∃ o s' evs,
    while_loop env fuel i s = (Ok o, s')
    ∧ trace s' = trace s ++ evs
    ∧ Forall (loop_event P) evs.
Proof.
  intros Hinv Hnd Hall Henv. revert i s Hinv Hnd Hall.
  induction fuel as [|fuel IH]; intros i s Hinv Hnd Hall;
    rewrite while_loop_eq; cbn zeta;
    pose proof (concurrently_distinct (before_check env i) s Hinv Hnd) as Hnd1;
    destruct (concurrently_invariant (before_check env i) s) as [Hinv1 _];
    specialize (Hinv1 Hinv);
    assert (Hall1 : tasks_satisfy P (snd (concurrently (before_check env i) s)))
      by (apply concurrently_satisfies; [exact Hinv|exact Hall|];
          intros a Ha; apply (Henv i a); by left);
    destruct (concurrently_frame (before_check env i) s)
      as (_ & _ & _ & Ht1 & _);
    destruct (run _ && negb (stop _));
    try (eexists _, _, []; split; [reflexivity|];
         split; [by rewrite app_nil_r|constructor]).
  unfold bind.
  destruct (iteration_returns (during_get env i) _ Hinv1 Hnd1 Hall1)
    as (s2 & evs & Hit & Hall2 & Htr2 & Hev2).
  { intros a Ha. apply (Henv i a). by right. }
  pose proof (iteration_invariant (during_get env i) _ Hinv1) as Hinv2.
  pose proof (iteration_distinct (during_get env i) _ Hinv1 Hnd1) as Hnd2.
  rewrite Hit in Hinv2, Hnd2 |- *. cbn [snd] in Hinv2, Hnd2.
  destruct (IH (S i) s2 Hinv2 Hnd2 Hall2) as (o & s3 & evs' & Hloop & Htr3 & Hev3).
  exists o, s3, (evs ++ evs'). split; [exact Hloop|]. split.
  - by rewrite Htr3, Htr2, Ht1, <- app_assoc.
  - apply Forall_app. by split.
Qed.

Lemma process_returns (env : Env) (fuel : nat) (s : State) :
  well_formed s → is_sorted s → tasks_satisfy P s → env_satisfies P env →
  ∃ o s' evs,
    _process env fuel s = (Ok o, s')
    ∧ trace s' = trace s ++ evs
    ∧ Forall (loop_event P) evs.
Proof.
  intros [Hnd Hwf] Hs Hall Henv. rewrite process_eq.
  assert (Hinv : invariant (set_run true s)) by by split.
  destruct (while_loop_returns env fuel 0 (set_run true s) Hinv Hnd Hall Henv)
    as (o & s' & evs & -> & Htr & Hev).
  destruct o.
  - eexists _, _, (evs ++ [LogDebug "Quitting Scheduler thread"]).
    split; [reflexivity|]. split.
    + cbn. by rewrite Htr, <- app_assoc.
    + apply Forall_app. split; [exact Hev|].
      constructor; [|constructor]. right. by right.
  - eexists _, _, evs. split; [reflexivity|]. by split.
Qed.

End tasks_that_return.






Lemma deferred_returns (t : Task.t) : deferred t → failure t = None.
Proof. unfold deferred, failure. by intros [q ->]. Qed.

Lemma loop_event_deferred (ev : event) :
  loop_event deferred ev → is_call ev = false.
Proof.
  intros [(b & t & ->)|[(t & [q Hq] & ->)| ->]]; try reflexivity.
  unfold firing. by rewrite Hq.
Qed.

(** X13. Tasks with a [qpointer] are never run by the scheduler: when
    every task held by the scheduler, and every task the other threads
    add, has a [qpointer], a run of [_process] calls no callback at
    all; every firing is a [put] on the task's queue, and [_process]
    does not raise. *)
Theorem deferred_tasks_never_called (env : Env) (fuel : nat) (s : State) :
  well_formed s → is_sorted s →
  tasks_satisfy deferred s → env_satisfies deferred env →
  ∃ o s' evs,
    _process env fuel s = (Ok o, s')
    ∧ trace s' = trace s ++ evs
    ∧ Forall (λ ev, is_call ev = false) evs.
Proof.
  intros Hwf Hs Hall Henv.
  destruct (process_returns deferred (λ _ _ H, H) deferred_returns
              env fuel s Hwf Hs Hall Henv) as (o & s' & evs & Hrun & Htr & Hev).
  exists o, s', evs. split; [exact Hrun|]. split; [exact Htr|].
  eapply Forall_impl; [exact Hev|]. apply loop_event_deferred.
Qed.

Lemma deferred_tasks_never_called_witness :
  let env := mkEnv (λ i, if Nat.eqb i 0
                         then [CallAdd "ping" 1 noop None None true
                                 (Some 4%nat)]
                         else []) (λ _, []) in
  ∃ o s' evs,
    _process env 6 (Scheduler__init__ false ticking) = (Ok o, s')
    ∧ trace s' = evs
    ∧ Forall (λ ev, is_call ev = false) evs.
Proof.
  intros env.
  destruct (deferred_tasks_never_called env 6 (Scheduler__init__ false ticking))
    as (o & s' & evs & Hrun & Htr & Hev).
  - split; [constructor|]. intros l Hl. cbn in Hl.
    by apply elem_of_nil in Hl.
  - constructor.
  - intros l Hl. cbn in Hl. by apply elem_of_nil in Hl.
  - intros i a [Ha|Ha]; cbn in Ha; [|by apply elem_of_nil in Ha].
    destruct (Nat.eqb i 0); [|by apply elem_of_nil in Ha].
    apply list_elem_of_singleton in Ha as ->. intros now. by exists 4%nat.
  - exists o, s', evs. split; [exact Hrun|]. split; [exact Htr|exact Hev].
Defined.

(** ** A burst of additions *)

Lemma while_loop_drains (k : nat) :
  ∀ i s, run s = true → stop s = false → k ≤ length (addq s) →
    ∃ s' evs,
      while_loop quiet k i s = (Ok OutOfFuel, s')
      ∧ addq s' = drop k (addq s)
      ∧ schedule s' ≡ₚ schedule s ++ take k (addq s)
      ∧ heap s' = heap s
      ∧ run s' = true ∧ stop s' = false
      ∧ trace s' = trace s ++ evs
      ∧ length evs = k
      ∧ Forall (λ ev, ∃ block timeout, ev = AddqGet block timeout) evs.
Proof.
  induction k as [|k IH]; intros i s Hrun Hstop Hlen;
    rewrite while_loop_eq; cbn [quiet before_check during_get concurrently
                                ret snd]; cbn zeta;
    rewrite Hrun, Hstop; cbn [negb andb].
  - exists s, []. rewrite drop_0, take_0, !app_nil_r.
    split_and!; try done.
  - destruct (addq s) as [|newtask rest] eqn:Hq; [cbn in Hlen; lia|].
    unfold bind. rewrite (iteration_merges s newtask rest Hq).
    destruct (after_wait_frame s) as (Hr0 & Hst0 & _ & Hh0 & Hs0 & _).
    set (s1 := set_lock _ _).
    assert (Hr1 : run s1 = true) by (subst s1; cbn; congruence).
    assert (Hst1 : stop s1 = false) by (subst s1; cbn; congruence).
    assert (Hq1 : addq s1 = rest) by reflexivity.
    assert (Hh1 : heap s1 = heap s) by (subst s1; cbn; exact Hh0).
    assert (Hs1 : schedule s1 ≡ₚ schedule s ++ [newtask]).
    { subst s1. unfold resorted.
      cbn [schedule set_lock set_schedule]. apply sorted_perm. }
    assert (Ht1 : trace s1 = trace s ++ [get_event (wait_of s)])
      by reflexivity.
    destruct (IH (S i) s1 Hr1 Hst1) as (s' & evs & Hloop & Hq' & Hs' & Hh'
                                        & Hr' & Hst' & Ht' & Hlen' & Hev').
    { rewrite Hq1. cbn in Hlen. lia. }
    exists s', (get_event (wait_of s) :: evs). split_and!; try done.
    + rewrite Hs', Hs1, Hq1. cbn [take]. by rewrite <- app_assoc.
    + by rewrite Hh', Hh1.
    + rewrite Ht', Ht1. by rewrite <- app_assoc.
    + cbn. by rewrite Hlen'.
    + constructor; [apply get_event_is_get|exact Hev'].
Qed.

(** X14. While [pending] is not empty nothing fires: with [k] tasks or
    more waiting in [pending] and no other thread interfering, the first
    [k] passes of [_process] each move one task, oldest first, from
    [pending] to [active]; in those passes no callback is called, no
    directive is queued and no task is re-timed, however long the
    tasks of [active] have been due. *)
Theorem burst_of_adds_delays_firing (k : nat) (s : State) :
  stop s = false → k ≤ length (addq s) →
  ∃ s' evs,
    _process quiet k s = (Ok OutOfFuel, s')
    ∧ addq s' = drop k (addq s)
    ∧ schedule s' ≡ₚ schedule s ++ take k (addq s)
    ∧ heap s' = heap s
    ∧ trace s' = trace s ++ evs
    ∧ length evs = k
    ∧ Forall (λ ev, ∃ block timeout, ev = AddqGet block timeout) evs.
Proof.
  intros Hstop Hlen. rewrite process_eq.
  destruct (while_loop_drains k 0 (set_run true s) eq_refl Hstop Hlen)
    as (s' & evs & -> & Hq & Hs & Hh & _ & _ & Ht & Hl & Hev).
  exists s', evs. by split_and!.
Qed.

Lemma burst_of_adds_delays_firing_witness :
  let s0 := Scheduler__init__ false ticking in
  let s1 := snd (add "once" 0 noop None None false None s0) in
  let s2 := snd (add "ping" 0 noop None None true None s1) in
  ∃ s' evs, _process quiet 2 s2 = (Ok OutOfFuel, s')
            ∧ addq s' = []
            ∧ trace s' = evs
            ∧ Forall (λ ev, ∃ block timeout, ev = AddqGet block timeout) evs.
Proof.
  intros s0 s1 s2.
  destruct (burst_of_adds_delays_firing 2 s2)
    as (s' & evs & Hrun & Hq & _ & _ & Ht & _ & Hev).
  - reflexivity.
  - vm_compute. lia.
  - exists s', evs. split_and!; [exact Hrun|exact Hq|exact Ht|exact Hev].
Defined.
